(** * defog: dark-channel-prior dehazing (src/defog.c)

    A shallow embedding of the numeric core of [defog.c] and the proofs of
    the properties stated about it.

    Modelling conventions.
    - C [int] is [Z].  Every [int] the program computes is bounded by the
      number of pixels of the image or by a dimension plus [MAP_WIDTH]; an
      [IplImage] keeps its size in bytes in an [int], so no overflow
      (undefined behaviour in C) is reachable.
    - C [double] is [Q], with exact arithmetic.  Comparisons are exact on
      both sides; the products and quotients of the program are idealised
      (no rounding, no infinities, no NaN).  A division by zero, which
      gives an infinity or a NaN in the program, is not described: the
      statements about computed values exclude a light intensity of 0, and
      those that would not survive the rounding of the doubles are stated
      with a margin or on the stored pixel.
    - An [IplImage] is its dimensions, channel count and depth, and a total
      function [imageData] from (row, column) to a [CvScalar].  For an image
      the program reads, [imageData] is what [cvGet2D] returns.  For an
      image the program writes, [imageData] is the [CvScalar] handed to
      [cvSet2D], and [pixel_buffer] is what OpenCV keeps of it in the pixel
      buffer for the depth and channel count of the image; the program
      never reads an image it has written.
    - [cvGet2D] and [cvSet2D] raise an OpenCV error outside the image; that
      is the only failure of the program and it is the [None] of the
      [option] monad. *)

From Stdlib Require Import ZArith QArith Qminmax Qround List Bool Lia Lqa.
From Stdlib Require Import Sorting.Sorted.
Import ListNotations.

Local Open Scope Z_scope.

(** ** Doubles *)

Definition Qltb (a b : Q) : bool :=
  (Qnum a * Zpos (Qden b) <? Qnum b * Zpos (Qden a))%Z.

Definition Qeqb (a b : Q) : bool :=
  (Qnum a * Zpos (Qden b) =? Qnum b * Zpos (Qden a))%Z.

(** [fmax] of the C library on two (non-NaN) doubles. *)
Definition fmax (a b : Q) : Q := if Qltb a b then b else a.

(** Conversion of a double to [int]: truncation toward zero. *)
Definition double_to_int (q : Q) : Z := Z.quot (Qnum q) (Zpos (Qden q)).

(** ** The error monad of OpenCV calls *)

Definition bind {A B : Type} (m : option A) (k : A -> option B) : option B :=
  match m with
  | Some a => k a
  | None => None
  end.

Notation "x <- m ;; k" := (bind m (fun x => k))
  (at level 61, m at next level, right associativity).

(** ** Loops *)

(** The values taken by [i] in [for (int i = lo; i < hi; i++)]. *)
Fixpoint range_from (n : nat) (lo : Z) : list Z :=
  match n with
  | O => []
  | S n' => lo :: range_from n' (lo + 1)
  end.

Definition range (lo hi : Z) : list Z := range_from (Z.to_nat (hi - lo)) lo.

(** A loop whose body may fail. *)
Fixpoint foldM {A S : Type} (body : A -> S -> option S) (l : list A) (s : S)
  : option S :=
  match l with
  | [] => Some s
  | i :: l' => s' <- body i s ;; foldM body l' s'
  end.

Definition for_range {S : Type} (lo hi : Z) (body : Z -> S -> option S) (s : S)
  : option S :=
  foldM body (range lo hi) s.

(** A loop whose body cannot fail. *)
Definition for_pure {S : Type} (lo hi : Z) (body : Z -> S -> S) (s : S) : S :=
  fold_left (fun s i => body i s) (range lo hi) s.

(** ** OpenCV data *)

(** [CvScalar]: [double val[4]]. *)
Record CvScalar : Type := mkScalar { val0 : Q; val1 : Q; val2 : Q; val3 : Q }.

Definition val (sc : CvScalar) (i : Z) : Q :=
  match i with
  | 0 => val0 sc
  | 1 => val1 sc
  | 2 => val2 sc
  | 3 => val3 sc
  | _ => 0%Q
  end.

Definition set_val (sc : CvScalar) (i : Z) (q : Q) : CvScalar :=
  match i with
  | 0 => mkScalar q (val1 sc) (val2 sc) (val3 sc)
  | 1 => mkScalar (val0 sc) q (val2 sc) (val3 sc)
  | 2 => mkScalar (val0 sc) (val1 sc) q (val3 sc)
  | 3 => mkScalar (val0 sc) (val1 sc) (val2 sc) q
  | _ => sc
  end.

Definition cvScalar (a b c d : Q) : CvScalar := mkScalar a b c d.
Definition cvScalarAll (a : Q) : CvScalar := mkScalar a a a a.

Record CvSize : Type := mkSize { size_width : Z; size_height : Z }.

(** The two pixel depths of the program: [img->depth] of a loaded image and
    the depth of the image made for the transform. *)
Inductive depth_t : Type := IPL_DEPTH_8U | IPL_DEPTH_32F.

Record IplImage : Type := mkImage {
  width : Z;
  height : Z;
  nChannels : Z;
  depth : depth_t;
  imageData : Z -> Z -> CvScalar   (* row, column *)
}.

Definition cvGetSize (img : IplImage) : CvSize :=
  mkSize (width img) (height img).

Definition in_image (img : IplImage) (y x : Z) : bool :=
  (0 <=? y) && (y <? height img) && (0 <=? x) && (x <? width img).

Definition cvGet2D (img : IplImage) (y x : Z) : option CvScalar :=
  if in_image img y x then Some (imageData img y x) else None.

(** [cvSet2D] records at (row, column) the [CvScalar] it is handed.  What
    OpenCV writes into the pixel buffer, the conversion of that scalar to
    the depth and channel count of the image, is [pixel_buffer] below. *)
Definition cvSet2D (img : IplImage) (y x : Z) (sc : CvScalar) : option IplImage :=
  if in_image img y x then
    Some (mkImage (width img) (height img) (nChannels img) (depth img)
            (fun y' x' => if (y' =? y) && (x' =? x) then sc else imageData img y' x'))
  else None.

(** [cvCreateImage] leaves the pixels uninitialised; they stand as zero here
    and the program writes every one of them before it reads any. *)
Definition cvCreateImage (size : CvSize) (d : depth_t) (channels : Z)
  : IplImage :=
  mkImage (size_width size) (size_height size) channels d
    (fun _ _ => cvScalarAll 0).

(** The conversion OpenCV applies when [cvSet2D] writes a value into the
    pixel buffer.  For 8-bit pixels the value is rounded to the nearest
    integer, a tie going to the even one ([cvRound]), and saturated to
    0..255.  For 32-bit floats the value is kept: the integers of an 8-bit
    image, the only values the program writes at that depth, are floats. *)
Definition cvRound (q : Q) : Z :=
  let f := Qfloor q in
  let r := (q - inject_Z f)%Q in
  if Qltb r (1 # 2) then f
  else if Qltb (1 # 2) r then f + 1
  else if Z.even f then f else f + 1.

Definition saturate_8u (z : Z) : Z :=
  if z <? 0 then 0 else if 255 <? z then 255 else z.

Definition to_depth (d : depth_t) (q : Q) : Q :=
  match d with
  | IPL_DEPTH_8U => inject_Z (saturate_8u (cvRound q))
  | IPL_DEPTH_32F => q
  end.

(** What an image of depth [d] with [channels] channels keeps of a scalar:
    its first [channels] values, converted; [cvGet2D] reads the others as
    0. *)
Definition stored (d : depth_t) (channels : Z) (sc : CvScalar) : CvScalar :=
  mkScalar
    (if 0 <? channels then to_depth d (val0 sc) else 0)
    (if 1 <? channels then to_depth d (val1 sc) else 0)
    (if 2 <? channels then to_depth d (val2 sc) else 0)
    (if 3 <? channels then to_depth d (val3 sc) else 0).

(** The pixel at (row, column) in the buffer of an image the program has
    written, as [cvGet2D] or the encoder would read it. *)
Definition pixel_buffer (img : IplImage) (y x : Z) : CvScalar :=
  stored (depth img) (nChannels img) (imageData img y x).

(** The largest [int]. *)
Definition INT_MAX : Z := 2147483647.

(** ** defog.c *)

Inductive channel_t : Type := BLUE | GREEN | RED.

Definition channel_index (c : channel_t) : Z :=
  match c with BLUE => 0 | GREEN => 1 | RED => 2 end.

Record channel_value_t : Type := mkChannelValue {
  cv_x : Z;
  cv_y : Z;
  cv_val : Q;
  cv_intensity : Q
}.

Definition MAP_WIDTH : Z := 20.

(** [scalar_min]: the index of the minimum of the first [num_vals] values. *)
Definition scalar_min (sc : CvScalar) (num_vals : Z) : Z :=
  let min := val sc 0 in
  let min_in := 0 in
  snd (for_pure 1 num_vals
         (fun i '(min, min_in) =>
            let v := val sc i in
            if Qltb v min then (v, i) else (min, min_in))
         (min, min_in)).

(** [find_dark_channel]. *)
Definition dark_step (img : IplImage) (y x : Z) (st : CvScalar * Z)
  : option (CvScalar * Z) :=
  let '(min_pixel, min) := st in
  curr_pixel <- cvGet2D img y x ;;
  let curr_min := scalar_min curr_pixel 3 in
  if Qltb (val curr_pixel curr_min) (val min_pixel min)
  then Some (curr_pixel, curr_min)
  else Some (min_pixel, min).

Definition find_dark_channel (img : IplImage) (x1 y1 x2 y2 : Z) : option Z :=
  min_pixel <- cvGet2D img y1 x1 ;;
  let min := scalar_min min_pixel 3 in
  st <- for_range y1 y2 (fun y => for_range x1 x2 (fun x => dark_step img y x))
          (min_pixel, min) ;;
  Some (snd st).

(** [find_light_intensity]. *)

(** The contents of [malloc]ed storage are indeterminate; [uninit] stands
    for them and is never read by the program. *)
Definition uninit : channel_value_t := mkChannelValue 0 0 0 0.

Definition sentinel : channel_value_t :=
  mkChannelValue (-1) (-1) (-1) (-1).

Definition malloc_top (n : Z) : list channel_value_t :=
  repeat uninit (Z.to_nat n).

Definition top_get (top : list channel_value_t) (i : Z) : channel_value_t :=
  nth (Z.to_nat i) top uninit.

Fixpoint list_set {A : Type} (l : list A) (n : nat) (v : A) : list A :=
  match l, n with
  | [], _ => []
  | _ :: t, O => v :: t
  | h :: t, S n' => h :: list_set t n' v
  end.

Definition top_set (top : list channel_value_t) (i : Z) (v : channel_value_t)
  : list channel_value_t :=
  list_set top (Z.to_nat i) v.

(** [int top_num = (x2 - x1) * (y2 - y1) * 0.001;]  The area is an [int]
    product; it is the product in [Z] as long as that is at most [INT_MAX],
    which holds for every region inside an image.  The product by the
    double nearest to 0.001 is rounded, then truncated; for the area of a
    region (an [int], not negative) the result is the truncation of the
    exact product by 1/1000: the relative error of the constant, about
    2e-17, is below half a unit in the last place, and the fractional part
    of area/1000 is a multiple of 1/1000. *)
Definition top_num_of (x1 y1 x2 y2 : Z) : Z :=
  double_to_int (inject_Z ((x2 - x1) * (y2 - y1)) * (1 # 1000)).

(** The array of the top pixels after the initialisation loop. *)
Definition init_top (top_num : Z) : list channel_value_t :=
  for_pure 0 top_num (fun i top => top_set top i sentinel) (malloc_top top_num).

(** The comparison of a bucket with a pixel, intensity as the tiebreaker. *)
Definition bucket_below (c : channel_value_t) (v intensity : Q) : bool :=
  Qltb (cv_val c) v || (Qeqb (cv_val c) v && Qltb (cv_intensity c) intensity).

(** The loop that attempts to place one pixel, from bucket [i] on; the
    [break] is the branch that does not recurse. *)
Fixpoint place_from (n : nat) (i : Z) (top : list channel_value_t)
    (x y : Z) (v intensity : Q) : list channel_value_t :=
  match n with
  | O => top
  | S n' =>
      if bucket_below (top_get top i) v intensity
      then top_set top i (mkChannelValue x y v intensity)
      else place_from n' (i + 1) top x y v intensity
  end.

Definition place (top_num : Z) (top : list channel_value_t)
    (x y : Z) (v intensity : Q) : list channel_value_t :=
  place_from (Z.to_nat top_num) 0 top x y v intensity.

Definition light_step (img gray : IplImage) (dark_channel top_num : Z)
    (y x : Z) (top : list channel_value_t) : option (list channel_value_t) :=
  p <- cvGet2D img y x ;;
  let v := val p dark_channel in
  g <- cvGet2D gray y x ;;
  let intensity := val g 0 in
  Some (place top_num top x y v intensity).

(** The iteration through the region. *)
Definition fill_top (img gray : IplImage) (dark_channel top_num : Z)
    (x1 y1 x2 y2 : Z) (top : list channel_value_t)
  : option (list channel_value_t) :=
  for_range y1 y2
    (fun y => for_range x1 x2 (fun x => light_step img gray dark_channel top_num y x))
    top.

(** The search for the maximum intensity in the array.  Of [max] only the
    intensity is initialised. *)
Definition select_max (top_num : Z) (top : list channel_value_t)
  : channel_value_t :=
  let max := mkChannelValue 0 0 0 (-1) in
  for_pure 0 top_num
    (fun i max =>
       if Qltb (cv_intensity max) (cv_intensity (top_get top i))
       then top_get top i
       else max)
    max.

Definition find_light_intensity (img gray : IplImage) (x1 y1 x2 y2 : Z)
  : option Q :=
  let top_num := top_num_of x1 y1 x2 y2 in
  let top := init_top top_num in
  dark_channel <- find_dark_channel img x1 y1 x2 y2 ;;
  top <- fill_top img gray dark_channel top_num x1 y1 x2 y2 top ;;
  let max := select_max top_num top in
  let ret_val := cv_intensity max in
  Some ret_val.

(** [main]: the bounds of the window of pixel (x, y). *)
Definition window (size : CvSize) (x y : Z) : Z * Z * Z * Z :=
  let x_low := if x - Z.quot MAP_WIDTH 2 >? 0 then x - Z.quot MAP_WIDTH 2 else 0 in
  let y_low := if y - Z.quot MAP_WIDTH 2 >? 0 then y - Z.quot MAP_WIDTH 2 else 0 in
  let x_high :=
    if x + Z.quot MAP_WIDTH 2 <=? size_width size
    then x + Z.quot MAP_WIDTH 2 else size_width size in
  let y_high :=
    if y + Z.quot MAP_WIDTH 2 <=? size_height size
    then y + Z.quot MAP_WIDTH 2 else size_height size in
  (x_low, y_low, x_high, y_high).

(** The loop over the channels of the output pixel. *)
Definition recover_pixel (img : IplImage) (light_intensity t : Q)
    (channels y x : Z) (out_pixel : CvScalar) : option CvScalar :=
  for_range 0 channels
    (fun i out_pixel =>
       p <- cvGet2D img y x ;;
       Some (set_val out_pixel i
               ((val p i - light_intensity) / fmax t (54 # 100) + light_intensity)%Q))
    out_pixel.

(** The body of the loops of [main] at pixel (x, y).  The quotient by the
    light intensity is the quotient of [Q]: for a light intensity of 0 the
    doubles of the program are an infinity or a NaN, which this model does
    not describe.  The scalars handed to [cvSet2D] become the [imageData] of
    [map] and [out]; both images have the depth of [img]. *)
Definition main_step (img : IplImage) (light_intensity : Q) (size : CvSize)
    (y x : Z) (st : IplImage * IplImage) : option (IplImage * IplImage) :=
  let '(map, out) := st in
  let '(x_low, y_low, x_high, y_high) := window size x y in
  dark_channel <- find_dark_channel img x_low y_low x_high y_high ;;
  p <- cvGet2D img y x ;;
  let t := (1 - val p dark_channel / light_intensity)%Q in
  map <- cvSet2D map y x (cvScalar (t * 255) 0 0 0) ;;
  let out_pixel := cvScalarAll 0 in
  out_pixel <- recover_pixel img light_intensity t (nChannels out) y x out_pixel ;;
  out <- cvSet2D out y x out_pixel ;;
  Some (map, out).

(** The transmission map and the output image for a light intensity. *)
Definition main_loop (img : IplImage) (light_intensity : Q)
  : option (IplImage * IplImage) :=
  let size := cvGetSize img in
  let map := cvCreateImage size (depth img) 1 in
  let out := cvCreateImage size (depth img) (nChannels img) in
  for_range 0 (size_height size)
    (fun y => for_range 0 (size_width size)
                (fun x => main_step img light_intensity size y x))
    (map, out).

(** [main], from the loaded image and its grayscale conversion (both made
    by OpenCV) to the two images it saves. *)
Definition main (img gray : IplImage) : option (IplImage * IplImage) :=
  let size := cvGetSize img in
  light_intensity <-
    find_light_intensity img gray 0 0 (size_width size) (size_height size) ;;
  main_loop img light_intensity.

(** ** Test images *)

Definition const_image (w h : Z) (sc : CvScalar) : IplImage :=
  mkImage w h 3 IPL_DEPTH_8U (fun _ _ => sc).
Definition gray_image (w h : Z) (g : Q) : IplImage :=
  mkImage w h 1 IPL_DEPTH_8U (fun _ _ => cvScalar g 0 0 0).

(** A 4 x 3 image whose channels vary with the position. *)
Definition ramp_image : IplImage :=
  mkImage 4 3 3 IPL_DEPTH_8U
    (fun y x => cvScalar (inject_Z (x + y + 2)) (inject_Z (9 - x)) 7 0).

(** A 2 x 1 image whose dark channel is set by its left pixel. *)
Definition pair_image : IplImage :=
  mkImage 2 1 3 IPL_DEPTH_8U
    (fun y x => if x =? 0 then cvScalar 0 50 50 0 else cvScalar 100 10 100 0).



(** A 40 x 25 image, dark but for one bright pixel in row 3, column 5, and
    its grayscale conversion. *)
Definition spot_image : IplImage :=
  mkImage 40 25 3 IPL_DEPTH_8U
    (fun y x => if (y =? 3) && (x =? 5)
                then cvScalar 200 210 220 0 else cvScalar 10 20 30 0).

Definition spot_gray : IplImage :=
  mkImage 40 25 1 IPL_DEPTH_8U
    (fun y x => if (y =? 3) && (x =? 5)
                then cvScalar 210 0 0 0 else cvScalar 20 0 0 0).

(** ** Regions *)

(** The pixels (row, column) of the region [x1, x2) x [y1, y2), in the order
    in which the two nested loops of the program visit them. *)
Definition region (x1 y1 x2 y2 : Z) : list (Z * Z) :=
  flat_map (fun y => map (pair y) (range x1 x2)) (range y1 y2).

(** Row-major order on (row, column). *)
Definition before (c c' : Z * Z) : Prop :=
  fst c < fst c' \/ (fst c = fst c' /\ snd c < snd c').

(** A non-empty region wholly inside the image. *)
Definition region_ok (img : IplImage) (x1 y1 x2 y2 : Z) : Prop :=
  0 <= x1 < x2 /\ x2 <= width img /\ 0 <= y1 < y2 /\ y2 <= height img.

(** The minimum channel value of a pixel, as the program reads it. *)
Definition min_val (sc : CvScalar) : Q := val sc (scalar_min sc 3).

(** ** Vocabulary of the statements *)

(** The state of the scan of [find_dark_channel] after the pixels [d]: the
    minimum pixel is the pixel at some [w], no visited pixel has a smaller
    minimum channel value, and those visited before [w] have a larger one. *)
Definition dark_inv (img : IplImage) (x1 y1 : Z) (d : list (Z * Z))
    (st : CvScalar * Z) : Prop :=
  exists w : Z * Z,
    (In w d \/ w = (y1, x1)) /\
    st = (imageData img (fst w) (snd w),
          scalar_min (imageData img (fst w) (snd w)) 3) /\
    (forall c, In c d ->
       (min_val (imageData img (fst w) (snd w))
        <= min_val (imageData img (fst c) (snd c)))%Q) /\
    (forall c, In c d -> before c w ->
       (min_val (imageData img (fst w) (snd w))
        < min_val (imageData img (fst c) (snd c)))%Q).

(** The first-fit replacement rule in the words of the specification: scan
    the slots in order, replace the first one whose (dark channel value,
    intensity) pair is lexicographically smaller than the pair of the new
    pixel, and stop. *)
Definition pair_ltb (a b : Q * Q) : bool :=
  Qltb (fst a) (fst b) || (Qeqb (fst a) (fst b) && Qltb (snd a) (snd b)).

Fixpoint first_fit_replace (slots : list channel_value_t) (p : channel_value_t)
  : list channel_value_t :=
  match slots with
  | [] => []
  | s :: rest =>
      if pair_ltb (cv_val s, cv_intensity s) (cv_val p, cv_intensity p)
      then p :: rest
      else s :: first_fit_replace rest p
  end.

(** The record the program builds for the pixel at (row, column) [c]. *)
Definition pixel_record (img gray : IplImage) (dark_channel : Z) (c : Z * Z)
  : channel_value_t :=
  mkChannelValue (snd c) (fst c)
    (val (imageData img (fst c) (snd c)) dark_channel)
    (val (imageData gray (fst c) (snd c)) 0).

(** The candidate set after the pixels [d] have been scanned. *)
Definition candidates (img gray : IplImage) (dark_channel : Z)
    (d : list (Z * Z)) (top0 : list channel_value_t) : list channel_value_t :=
  fold_left (fun t c => first_fit_replace t (pixel_record img gray dark_channel c))
    d top0.

(** The selection loop, on the elements of the array. *)
Definition brighter (max c : channel_value_t) : channel_value_t :=
  if Qltb (cv_intensity max) (cv_intensity c) then c else max.

(** The pixel values of a decoded image are not negative. *)
Definition pixels_nonneg (img : IplImage) : Prop :=
  forall y x k, 0 <= y < height img -> 0 <= x < width img ->
    (0 <= val (imageData img y x) k)%Q.

(** The start of the selection loop. *)
Definition max0 : channel_value_t := mkChannelValue 0 0 0 (-1).

Definition set_pixel (img : IplImage) (y x : Z) (sc : CvScalar) : IplImage :=
  mkImage (width img) (height img) (nChannels img) (depth img)
    (fun y' x' => if (y' =? y) && (x' =? x) then sc else imageData img y' x').

(** The transmission estimate and the recovered value of channel [k] at a
    pixel [p], for the dark channel [dc] of its window. *)
Definition transmission (p : CvScalar) (dc : Z) (light_intensity : Q) : Q :=
  (1 - val p dc / light_intensity)%Q.

Definition recovered (p : CvScalar) (k : Z) (light_intensity t : Q) : Q :=
  ((val p k - light_intensity) / fmax t (54 # 100) + light_intensity)%Q.

(** What the loops of [main] have written at a pixel. *)
Definition pixel_done (img : IplImage) (light_intensity : Q) (y x : Z)
    (map_pixel out_pixel : CvScalar) : Prop :=
  exists dc,
    find_dark_channel img (Z.max (x - 10) 0) (Z.max (y - 10) 0)
      (Z.min (x + 10) (width img)) (Z.min (y + 10) (height img)) = Some dc /\
    0 <= dc < 3 /\
    map_pixel =
      cvScalar (transmission (imageData img y x) dc light_intensity * 255) 0 0 0 /\
    forall k, 0 <= k < 3 ->
      val out_pixel k =
      recovered (imageData img y x) k light_intensity
        (transmission (imageData img y x) dc light_intensity).

(** The state of the loops of [main] after the pixels [d]. *)
Definition main_inv (img : IplImage) (light_intensity : Q) (d : list (Z * Z))
    (st : IplImage * IplImage) : Prop :=
  (width (fst st) = width img /\ height (fst st) = height img) /\
  (width (snd st) = width img /\ height (snd st) = height img /\
   nChannels (snd st) = 3) /\
  forall c, In c d ->
    pixel_done img light_intensity (fst c) (snd c)
      (imageData (fst st) (fst c) (snd c)) (imageData (snd st) (fst c) (snd c)).

(** The lexicographic order on the pairs (dark channel value, intensity)
    that [find_light_intensity] compares. *)
Definition pair_lt (v i v' i' : Q) : Prop :=
  (v < v')%Q \/ ((v == v')%Q /\ (i < i')%Q).

Definition pair_le (v i v' i' : Q) : Prop :=
  (v < v')%Q \/ ((v == v')%Q /\ (i <= i')%Q).

(** A one-channel 8-bit image as [cvGet2D] reads it: at every pixel an integer
    of 0..255 in the first value and 0 in the others. *)
Definition gray_8u (img : IplImage) : Prop :=
  nChannels img = 1 /\ depth img = IPL_DEPTH_8U /\
  forall y x, 0 <= y < height img -> 0 <= x < width img ->
    exists k, 0 <= k <= 255 /\ imageData img y x = cvScalar (inject_Z k) 0 0 0.

(** ** [evaluate]: the copy to the depth of the transform *)

(** The two loops of [evaluate] that copy the grayscale image [gray_tmp]
    into the image [gray] created for the transform.  The calls before and
    after them (colour conversion, transform, threshold, count) are
    OpenCV's. *)
Definition copy_step (gray_tmp : IplImage) (y x : Z) (gray : IplImage)
  : option IplImage :=
  p <- cvGet2D gray_tmp y x ;;
  cvSet2D gray y x p.

Definition evaluate_copy (size : CvSize) (gray_tmp gray : IplImage)
  : option IplImage :=
  for_range 0 (size_height size)
    (fun y => for_range 0 (size_width size) (fun x => copy_step gray_tmp y x))
    gray.

(** * Proofs *)

(** ** The program on small inputs *)

Example scalar_min_first_of_equal : scalar_min (cvScalar 3 2 2 0) 3 = 1.
Proof. reflexivity. Qed.

Example find_dark_channel_ramp : find_dark_channel ramp_image 0 0 4 3 = Some 0.
Proof. vm_compute. reflexivity. Qed.

Example find_dark_channel_outside : find_dark_channel ramp_image 0 0 5 3 = None.
Proof. vm_compute. reflexivity. Qed.

Example top_num_2000 : top_num_of 0 0 50 40 = 2.
Proof. reflexivity. Qed.

Example top_num_999 : top_num_of 0 0 37 27 = 0.
Proof. reflexivity. Qed.

Example place_first_slot :
  place 2 [mkChannelValue 0 0 5 9; sentinel] 1 1 5 10 =
  [mkChannelValue 1 1 5 10; sentinel].
Proof. reflexivity. Qed.

Example place_second_slot :
  place 2 [mkChannelValue 0 0 5 9; sentinel] 1 1 4 10 =
  [mkChannelValue 0 0 5 9; mkChannelValue 1 1 4 10].
Proof. reflexivity. Qed.

Example find_light_intensity_spot :
  find_light_intensity spot_image spot_gray 0 0 40 25 = Some 210%Q.
Proof. vm_compute. reflexivity. Qed.

Example window_corner : window (mkSize 100 100) 0 0 = (0, 0, 10, 10).
Proof. reflexivity. Qed.

Example window_far_corner : window (mkSize 100 100) 99 99 = (89, 89, 100, 100).
Proof. reflexivity. Qed.

(** ** Comparisons of doubles *)

Lemma Qltb_lt (a b : Q) : Qltb a b = true <-> (a < b)%Q.
Proof. unfold Qltb, Qlt. apply Z.ltb_lt. Qed.

Lemma Qltb_ge (a b : Q) : Qltb a b = false <-> (b <= a)%Q.
Proof. unfold Qltb, Qle. rewrite Z.ltb_ge. reflexivity. Qed.

Lemma Qeqb_eq (a b : Q) : Qeqb a b = true <-> (a == b)%Q.
Proof. unfold Qeqb, Qeq. apply Z.eqb_eq. Qed.

(** ** Ranges and regions *)

Lemma range_from_In (n : nat) (lo i : Z) :
  In i (range_from n lo) <-> lo <= i < lo + Z.of_nat n.
Proof.
  revert lo. induction n as [|n IH]; intros lo; simpl.
  - lia.
  - rewrite IH. lia.
Qed.

Lemma range_In (lo hi i : Z) : In i (range lo hi) <-> lo <= i < hi.
Proof. unfold range. rewrite range_from_In. lia. Qed.

Lemma range_from_sorted (n : nat) (lo : Z) :
  StronglySorted Z.lt (range_from n lo).
Proof.
  revert lo. induction n as [|n IH]; intros lo; simpl; constructor.
  - apply IH.
  - apply Forall_forall. intros i Hi. apply range_from_In in Hi. lia.
Qed.

Lemma region_In (x1 y1 x2 y2 y x : Z) :
  In (y, x) (region x1 y1 x2 y2) <-> (y1 <= y < y2 /\ x1 <= x < x2).
Proof.
  unfold region. rewrite in_flat_map. split.
  - intros [y' [Hy Hx]]. apply in_map_iff in Hx.
    destruct Hx as [x' [E Hx]]. inversion E; subst.
    apply range_In in Hy. apply range_In in Hx. tauto.
  - intros [Hy Hx]. exists y. split.
    + now apply range_In.
    + apply in_map. now apply range_In.
Qed.

Lemma sorted_app {A : Type} (R : A -> A -> Prop) (l1 l2 : list A) :
  StronglySorted R l1 -> StronglySorted R l2 ->
  (forall a b, In a l1 -> In b l2 -> R a b) ->
  StronglySorted R (l1 ++ l2).
Proof.
  induction l1 as [|a l1 IH]; intros H1 H2 H; simpl; auto.
  inversion H1 as [|? ? Hs Hf]; subst. constructor.
  - apply IH; auto. intros; apply H; simpl; auto.
  - apply Forall_forall. intros b Hb. apply in_app_or in Hb.
    destruct Hb as [Hb|Hb].
    + rewrite Forall_forall in Hf. auto.
    + apply H; simpl; auto.
Qed.

Lemma sorted_prefix {A : Type} (R : A -> A -> Prop) (d : list A) (c : A) (r : list A) :
  StronglySorted R (d ++ c :: r) -> forall a, In a d -> R a c.
Proof.
  induction d as [|b d IH]; intros H a Ha; simpl in *.
  - contradiction.
  - inversion H as [|? ? Hs Hf]; subst. destruct Ha as [-> | Ha].
    + rewrite Forall_forall in Hf. apply Hf. apply in_or_app. simpl. auto.
    + apply IH; auto.
Qed.

Lemma sorted_map_pair (y : Z) (xs : list Z) :
  StronglySorted Z.lt xs -> StronglySorted before (map (pair y) xs).
Proof.
  induction 1 as [|x xs Hs IH Hx]; simpl; constructor; auto.
  apply Forall_forall. intros c Hc. apply in_map_iff in Hc.
  destruct Hc as [x' [<- Hx']]. rewrite Forall_forall in Hx.
  right. simpl. split; auto.
Qed.

Lemma sorted_rows (xs ys : list Z) :
  StronglySorted Z.lt xs -> StronglySorted Z.lt ys ->
  StronglySorted before (flat_map (fun y => map (pair y) xs) ys).
Proof.
  intros Hxs. induction 1 as [|y ys Hs IH Hy]; simpl.
  - constructor.
  - apply sorted_app; auto.
    + now apply sorted_map_pair.
    + intros a b Ha Hb. apply in_map_iff in Ha. destruct Ha as [x [<- _]].
      apply in_flat_map in Hb. destruct Hb as [y' [Hy' Hb]].
      apply in_map_iff in Hb. destruct Hb as [x' [<- _]].
      rewrite Forall_forall in Hy. left. simpl. auto.
Qed.

Lemma region_sorted (x1 y1 x2 y2 : Z) :
  StronglySorted before (region x1 y1 x2 y2).
Proof. apply sorted_rows; apply range_from_sorted. Qed.

(** In the scan of a region, the pixels visited before a pixel are before
    it in row-major order. *)
Lemma region_prefix_before (x1 y1 x2 y2 : Z) (d : list (Z * Z)) (c : Z * Z)
    (r : list (Z * Z)) :
  region x1 y1 x2 y2 = d ++ c :: r -> forall a, In a d -> before a c.
Proof.
  intros E. apply (sorted_prefix before d c r). rewrite <- E.
  apply region_sorted.
Qed.

Lemma before_asym (c c' : Z * Z) : before c c' -> before c' c -> False.
Proof. unfold before. lia. Qed.

(** ** Loops *)

Lemma foldM_app {A S : Type} (body : A -> S -> option S) (l1 l2 : list A) (s : S) :
  foldM body (l1 ++ l2) s = (s' <- foldM body l1 s ;; foldM body l2 s').
Proof.
  revert s. induction l1 as [|a l1 IH]; intros s; simpl; auto.
  destruct (body a s); simpl; auto.
Qed.

Lemma foldM_map {A B S : Type} (f : A -> B) (body : B -> S -> option S)
    (l : list A) (s : S) :
  foldM body (map f l) s = foldM (fun a => body (f a)) l s.
Proof.
  revert s. induction l as [|a l IH]; intros s; simpl; auto.
  destruct (body (f a) s); simpl; auto.
Qed.

(** Two nested loops over a region are one loop over its pixels. *)
Lemma for_range_region {S : Type} (body : Z -> Z -> S -> option S)
    (x1 y1 x2 y2 : Z) (s : S) :
  for_range y1 y2 (fun y => for_range x1 x2 (fun x => body y x)) s =
  foldM (fun c => body (fst c) (snd c)) (region x1 y1 x2 y2) s.
Proof.
  unfold for_range, region. generalize (range y1 y2) as ys. intros ys.
  revert s. induction ys as [|y ys IH]; intros s; simpl; auto.
  rewrite foldM_app, foldM_map. simpl.
  destruct (foldM (fun a => body y a) (range x1 x2) s); simpl; auto.
Qed.

(** Invariants of a loop over a list: [P d s] relates the state [s] to the
    elements [d] already visited. *)
Lemma foldM_invariant {A S : Type} (body : A -> S -> option S)
    (P : list A -> S -> Prop) (l : list A) (s : S) :
  P [] s ->
  (forall d c r s, l = d ++ c :: r -> P d s ->
     exists s', body c s = Some s' /\ P (d ++ [c]) s') ->
  exists s', foldM body l s = Some s' /\ P l s'.
Proof.
  intros H0 Hstep.
  assert (G : forall l' d s, l = d ++ l' -> P d s ->
            exists s', foldM body l' s = Some s' /\ P (d ++ l') s').
  { induction l' as [|c l' IH]; intros d s0 E Hd; simpl.
    - exists s0. rewrite app_nil_r. auto.
    - destruct (Hstep d c l' s0 E Hd) as [s1 [E1 H1]]. rewrite E1. simpl.
      destruct (IH (d ++ [c]) s1) as [s2 [E2 H2]]; auto.
      + rewrite <- app_assoc. exact E.
      + exists s2. rewrite <- app_assoc in H2. auto. }
  apply (G l [] s); auto.
Qed.

Lemma fold_left_invariant {A S : Type} (step : S -> A -> S)
    (P : list A -> S -> Prop) (l : list A) (s : S) :
  P [] s ->
  (forall d c r s, l = d ++ c :: r -> P d s -> P (d ++ [c]) (step s c)) ->
  P l (fold_left step l s).
Proof.
  intros H0 Hstep.
  assert (G : forall l' d s, l = d ++ l' -> P d s ->
            P (d ++ l') (fold_left step l' s)).
  { induction l' as [|c l' IH]; intros d s0 E Hd; simpl.
    - rewrite app_nil_r. auto.
    - replace (d ++ c :: l') with ((d ++ [c]) ++ l')
        by (rewrite <- app_assoc; reflexivity).
      apply IH.
      + rewrite <- app_assoc. exact E.
      + eapply Hstep; eauto. }
  apply (G l [] s); auto.
Qed.

(** ** [scalar_min] *)

Lemma scalar_min_3 (sc : CvScalar) :
  scalar_min sc 3 =
  if Qltb (val1 sc) (val0 sc)
  then (if Qltb (val2 sc) (val1 sc) then 2 else 1)
  else (if Qltb (val2 sc) (val0 sc) then 2 else 0).
Proof.
  unfold scalar_min, for_pure. change (range 1 3) with [1; 2]. cbn.
  destruct (Qltb (val1 sc) (val0 sc)); cbn;
    [destruct (Qltb (val2 sc) (val1 sc)) | destruct (Qltb (val2 sc) (val0 sc))];
    reflexivity.
Qed.

Lemma scalar_min_spec (sc : CvScalar) :
  0 <= scalar_min sc 3 < 3 /\
  (forall k, 0 <= k < 3 -> (min_val sc <= val sc k)%Q) /\
  (forall k, 0 <= k < scalar_min sc 3 -> (min_val sc < val sc k)%Q).
Proof.
  unfold min_val. rewrite scalar_min_3.
  destruct (Qltb (val1 sc) (val0 sc)) eqn:E1;
    [destruct (Qltb (val2 sc) (val1 sc)) eqn:E2
    | destruct (Qltb (val2 sc) (val0 sc)) eqn:E2];
    try apply Qltb_lt in E1; try apply Qltb_ge in E1;
    try apply Qltb_lt in E2; try apply Qltb_ge in E2;
    (split; [lia|]); split; intros k Hk;
    assert (Hc : k = 0 \/ k = 1 \/ k = 2) by lia;
    destruct Hc as [-> | [-> | ->]]; cbn; try lra; try lia.
Qed.

Lemma scalar_min_range (sc : CvScalar) : 0 <= scalar_min sc 3 < 3.
Proof. apply scalar_min_spec. Qed.

(** ** [find_dark_channel] *)

Lemma cvGet2D_in (img : IplImage) (y x : Z) :
  0 <= y < height img -> 0 <= x < width img ->
  cvGet2D img y x = Some (imageData img y x).
Proof.
  intros Hy Hx. unfold cvGet2D, in_image.
  replace (0 <=? y) with true by (symmetry; apply Z.leb_le; lia).
  replace (y <? height img) with true by (symmetry; apply Z.ltb_lt; lia).
  replace (0 <=? x) with true by (symmetry; apply Z.leb_le; lia).
  replace (x <? width img) with true by (symmetry; apply Z.ltb_lt; lia).
  reflexivity.
Qed.

Lemma region_ok_In (img : IplImage) (x1 y1 x2 y2 : Z) (c : Z * Z) :
  region_ok img x1 y1 x2 y2 -> In c (region x1 y1 x2 y2) ->
  (y1 <= fst c < y2 /\ x1 <= snd c < x2) /\
  cvGet2D img (fst c) (snd c) = Some (imageData img (fst c) (snd c)).
Proof.
  intros Hok Hc. destruct c as [y x]. apply region_In in Hc. simpl.
  split; auto. unfold region_ok in Hok. apply cvGet2D_in; lia.
Qed.

Lemma find_dark_channel_scan (img : IplImage) (x1 y1 x2 y2 : Z) :
  region_ok img x1 y1 x2 y2 ->
  exists st,
    foldM (fun c => dark_step img (fst c) (snd c)) (region x1 y1 x2 y2)
      (imageData img y1 x1, scalar_min (imageData img y1 x1) 3) = Some st /\
    dark_inv img x1 y1 (region x1 y1 x2 y2) st.
Proof.
  intros Hok. apply foldM_invariant.
  - exists (y1, x1). simpl. repeat split; auto; intros c [].
  - intros d c r st E [w [Hw [-> [Hle Hlt]]]].
    assert (Hc : In c (region x1 y1 x2 y2))
      by (rewrite E; apply in_or_app; simpl; auto).
    destruct (region_ok_In img x1 y1 x2 y2 c Hok Hc) as [Hin Hget].
    unfold dark_step. rewrite Hget. simpl.
    fold (min_val (imageData img (fst c) (snd c))).
    fold (min_val (imageData img (fst w) (snd w))).
    destruct (Qltb (min_val (imageData img (fst c) (snd c)))
                (min_val (imageData img (fst w) (snd w)))) eqn:Ecmp.
    + apply Qltb_lt in Ecmp. eexists; split; [reflexivity|].
      exists c. repeat split.
      * left. apply in_or_app. simpl. auto.
      * intros c' Hc'. apply in_app_or in Hc'. destruct Hc' as [Hc'|[<-|[]]].
        -- specialize (Hle c' Hc'). lra.
        -- lra.
      * intros c' Hc' Hb. apply in_app_or in Hc'. destruct Hc' as [Hc'|[<-|[]]].
        -- specialize (Hle c' Hc'). lra.
        -- exfalso. unfold before in Hb. lia.
    + apply Qltb_ge in Ecmp. eexists; split; [reflexivity|].
      exists w. repeat split.
      * destruct Hw as [Hw|Hw]; auto. left. apply in_or_app. auto.
      * intros c' Hc'. apply in_app_or in Hc'. destruct Hc' as [Hc'|[<-|[]]]; auto.
      * intros c' Hc' Hb. apply in_app_or in Hc'. destruct Hc' as [Hc'|[<-|[]]]; auto.
        exfalso. destruct Hw as [Hw | ->].
        -- apply (before_asym c w); auto.
           apply (region_prefix_before x1 y1 x2 y2 d c r E w Hw).
        -- unfold before in Hb. simpl in Hb. lia.
Qed.

(** What [find_dark_channel] returns on a non-empty region inside the image:
    the index of the minimum channel of the first pixel, in row-major order,
    whose minimum channel value is the smallest of the region. *)
Lemma find_dark_channel_spec (img : IplImage) (x1 y1 x2 y2 : Z) :
  region_ok img x1 y1 x2 y2 ->
  exists xw yw,
    (x1 <= xw < x2 /\ y1 <= yw < y2) /\
    find_dark_channel img x1 y1 x2 y2 =
      Some (scalar_min (imageData img yw xw) 3) /\
    (forall x y, x1 <= x < x2 -> y1 <= y < y2 ->
       (min_val (imageData img yw xw) <= min_val (imageData img y x))%Q) /\
    (forall x y, x1 <= x < x2 -> y1 <= y < y2 -> before (y, x) (yw, xw) ->
       (min_val (imageData img yw xw) < min_val (imageData img y x))%Q).
Proof.
  intros Hok.
  destruct (find_dark_channel_scan img x1 y1 x2 y2 Hok)
    as [st [Escan [[yw xw] [Hw [-> [Hle Hlt]]]]]].
  simpl in *.
  assert (Hfirst : In (y1, x1) (region x1 y1 x2 y2))
    by (apply region_In; unfold region_ok in Hok; lia).
  assert (Hin : In (yw, xw) (region x1 y1 x2 y2))
    by (destruct Hw as [Hw|Hw]; [exact Hw | rewrite Hw; exact Hfirst]).
  exists xw, yw. split; [apply region_In in Hin; tauto|]. split.
  - unfold find_dark_channel.
    rewrite (cvGet2D_in img y1 x1) by (unfold region_ok in Hok; lia).
    simpl. rewrite for_range_region, Escan. reflexivity.
  - split.
    + intros x y Hx Hy. apply (Hle (y, x)). apply region_In. tauto.
    + intros x y Hx Hy Hb. apply (Hlt (y, x)); auto. apply region_In. tauto.
Qed.

(** ** [find_light_intensity] *)

Lemma top_num_of_quot (x1 y1 x2 y2 : Z) :
  top_num_of x1 y1 x2 y2 = Z.quot ((x2 - x1) * (y2 - y1)) 1000.
Proof.
  unfold top_num_of, double_to_int. simpl. rewrite Z.mul_1_r. reflexivity.
Qed.

Lemma top_num_of_div (x1 y1 x2 y2 : Z) :
  0 <= (x2 - x1) * (y2 - y1) ->
  top_num_of x1 y1 x2 y2 = (x2 - x1) * (y2 - y1) / 1000.
Proof.
  intros H. rewrite top_num_of_quot. apply Z.quot_div_nonneg; lia.
Qed.

Lemma list_set_middle {A : Type} (pre : list A) (a v : A) (suf : list A) :
  list_set (pre ++ a :: suf) (length pre) v = pre ++ v :: suf.
Proof. induction pre as [|b pre IH]; simpl; auto. now rewrite IH. Qed.

Lemma init_top_from (k j : nat) :
  fold_left (fun top i => top_set top i sentinel) (range_from k (Z.of_nat j))
    (repeat sentinel j ++ repeat uninit k) = repeat sentinel (j + k).
Proof.
  revert j. induction k as [|k IH]; intros j; simpl.
  - rewrite app_nil_r. f_equal. lia.
  - assert (E : top_set (repeat sentinel j ++ uninit :: repeat uninit k)
                 (Z.of_nat j) sentinel
               = repeat sentinel (S j) ++ repeat uninit k).
    { unfold top_set. rewrite Nat2Z.id.
      replace j with (length (repeat sentinel j)) at 2 by apply repeat_length.
      rewrite list_set_middle.
      change (repeat sentinel (S j)) with (sentinel :: repeat sentinel j).
      rewrite (repeat_cons j sentinel), <- app_assoc. reflexivity. }
    rewrite E. replace (Z.of_nat j + 1) with (Z.of_nat (S j)) by lia.
    rewrite IH. f_equal. lia.
Qed.

(** The initialisation loop sets every slot to the sentinel. *)
Lemma init_top_repeat (n : Z) : init_top n = repeat sentinel (Z.to_nat n).
Proof.
  unfold init_top, for_pure, range, malloc_top. rewrite Z.sub_0_r.
  apply (init_top_from (Z.to_nat n) 0).
Qed.

Lemma top_get_middle (pre : list channel_value_t) (c : channel_value_t)
    (suf : list channel_value_t) :
  top_get (pre ++ c :: suf) (Z.of_nat (length pre)) = c.
Proof. unfold top_get. rewrite Nat2Z.id. apply nth_middle. Qed.

Lemma place_from_first_fit (x y : Z) (v intensity : Q)
    (suf pre : list channel_value_t) :
  place_from (length suf) (Z.of_nat (length pre)) (pre ++ suf) x y v intensity =
  pre ++ first_fit_replace suf (mkChannelValue x y v intensity).
Proof.
  revert pre. induction suf as [|c suf IH]; intros pre; simpl; auto.
  rewrite top_get_middle. unfold bucket_below, pair_ltb. simpl.
  destruct (Qltb (cv_val c) v || Qeqb (cv_val c) v && Qltb (cv_intensity c) intensity).
  - unfold top_set. rewrite Nat2Z.id. apply list_set_middle.
  - replace (Z.of_nat (length pre) + 1) with (Z.of_nat (length (pre ++ [c])))
      by (rewrite length_app; simpl; lia).
    replace (pre ++ c :: suf) with ((pre ++ [c]) ++ suf)
      by (rewrite <- app_assoc; reflexivity).
    rewrite IH, <- app_assoc. reflexivity.
Qed.

(** The placement loop of the program is the first-fit replacement rule. *)
Lemma place_first_fit (top_num : Z) (top : list channel_value_t)
    (x y : Z) (v intensity : Q) :
  Z.to_nat top_num = length top ->
  place top_num top x y v intensity =
  first_fit_replace top (mkChannelValue x y v intensity).
Proof.
  intros H. unfold place. rewrite H.
  apply (place_from_first_fit x y v intensity top []).
Qed.

Lemma first_fit_replace_length (slots : list channel_value_t) (p : channel_value_t) :
  length (first_fit_replace slots p) = length slots.
Proof.
  induction slots as [|s rest IH]; simpl; auto.
  destruct (pair_ltb _ _); simpl; auto.
Qed.

Lemma candidates_length (img gray : IplImage) (dc : Z) (d : list (Z * Z))
    (top0 : list channel_value_t) :
  length (candidates img gray dc d top0) = length top0.
Proof.
  unfold candidates. revert top0. induction d as [|c d IH]; intros top0; simpl; auto.
  rewrite IH. apply first_fit_replace_length.
Qed.

Lemma candidates_snoc (img gray : IplImage) (dc : Z) (d : list (Z * Z))
    (c : Z * Z) (top0 : list channel_value_t) :
  candidates img gray dc (d ++ [c]) top0 =
  first_fit_replace (candidates img gray dc d top0) (pixel_record img gray dc c).
Proof. unfold candidates. rewrite fold_left_app. reflexivity. Qed.

(** The scan of the region succeeds and leaves the candidates of the
    first-fit rule applied to its pixels in scan order. *)
Lemma fill_top_spec (img gray : IplImage) (dc top_num x1 y1 x2 y2 : Z)
    (top0 : list channel_value_t) :
  region_ok img x1 y1 x2 y2 -> region_ok gray x1 y1 x2 y2 ->
  Z.to_nat top_num = length top0 ->
  fill_top img gray dc top_num x1 y1 x2 y2 top0 =
  Some (candidates img gray dc (region x1 y1 x2 y2) top0).
Proof.
  intros Hi Hg Hn. unfold fill_top. rewrite for_range_region.
  destruct (foldM_invariant
              (fun c => light_step img gray dc top_num (fst c) (snd c))
              (fun d top => top = candidates img gray dc d top0)
              (region x1 y1 x2 y2) top0) as [top [E ->]]; auto.
  intros d c r top E ->.
  assert (Hc : In c (region x1 y1 x2 y2))
    by (rewrite E; apply in_or_app; simpl; auto).
  destruct (region_ok_In img x1 y1 x2 y2 c Hi Hc) as [_ Hget].
  destruct (region_ok_In gray x1 y1 x2 y2 c Hg Hc) as [_ Hget'].
  unfold light_step. rewrite Hget, Hget'. simpl.
  eexists; split; [reflexivity|].
  rewrite candidates_snoc, place_first_fit; [reflexivity|].
  rewrite candidates_length. exact Hn.
Qed.

Lemma select_from (top suf pre : list channel_value_t) (m : channel_value_t) :
  top = pre ++ suf ->
  fold_left (fun max i => brighter max (top_get top i))
    (range_from (length suf) (Z.of_nat (length pre))) m =
  fold_left brighter suf m.
Proof.
  revert pre m. induction suf as [|c suf IH]; intros pre m E; simpl; auto.
  rewrite E at 1. rewrite top_get_middle.
  replace (Z.of_nat (length pre) + 1) with (Z.of_nat (length (pre ++ [c])))
    by (rewrite length_app; simpl; lia).
  apply IH. rewrite E, <- app_assoc. reflexivity.
Qed.

Lemma select_max_fold (top_num : Z) (top : list channel_value_t) :
  Z.to_nat top_num = length top ->
  select_max top_num top = fold_left brighter top (mkChannelValue 0 0 0 (-1)).
Proof.
  intros H. unfold select_max, for_pure, range. rewrite Z.sub_0_r, H.
  apply (select_from top top []). reflexivity.
Qed.

Lemma brighter_cases (m c : channel_value_t) :
  (brighter m c = m /\ (cv_intensity c <= cv_intensity m)%Q) \/
  (brighter m c = c /\ (cv_intensity m < cv_intensity c)%Q).
Proof.
  unfold brighter. destruct (Qltb (cv_intensity m) (cv_intensity c)) eqn:E.
  - right. split; auto. now apply Qltb_lt.
  - left. split; auto. now apply Qltb_ge.
Qed.

Lemma fold_brighter_spec (top : list channel_value_t) (m : channel_value_t) :
  (fold_left brighter top m = m \/ In (fold_left brighter top m) top) /\
  (cv_intensity m <= cv_intensity (fold_left brighter top m))%Q /\
  (forall c, In c top ->
     (cv_intensity c <= cv_intensity (fold_left brighter top m))%Q).
Proof.
  revert m. induction top as [|c top IH]; intros m; simpl.
  - split; [auto|]. split; [lra|]. intros c [].
  - destruct (IH (brighter m c)) as [Hr [Hm Hall]].
    destruct (brighter_cases m c) as [[Hb Hc]|[Hb Hc]]; rewrite Hb in *.
    + split; [tauto|]. split; [exact Hm|].
      intros c' [<-|Hc']; [lra | auto].
    + split; [|split].
      * destruct Hr as [Hr|Hr]; [rewrite Hr|]; auto.
      * lra.
      * intros c' [<-|Hc']; auto.
Qed.

Lemma region_ok_top_num (img : IplImage) (x1 y1 x2 y2 : Z) :
  region_ok img x1 y1 x2 y2 ->
  top_num_of x1 y1 x2 y2 = (x2 - x1) * (y2 - y1) / 1000 /\
  0 <= top_num_of x1 y1 x2 y2.
Proof.
  intros Hok. unfold region_ok in Hok.
  assert (0 <= (x2 - x1) * (y2 - y1)) by nia.
  rewrite top_num_of_div by assumption. split; auto.
  apply Z.div_pos; lia.
Qed.

(** [find_light_intensity] on a non-empty region inside both images. *)
Lemma find_light_intensity_spec (img gray : IplImage) (x1 y1 x2 y2 : Z) :
  region_ok img x1 y1 x2 y2 -> region_ok gray x1 y1 x2 y2 ->
  exists dc,
    find_dark_channel img x1 y1 x2 y2 = Some dc /\
    0 <= dc < 3 /\
    fill_top img gray dc (top_num_of x1 y1 x2 y2) x1 y1 x2 y2
      (init_top (top_num_of x1 y1 x2 y2)) =
      Some (candidates img gray dc (region x1 y1 x2 y2)
              (repeat sentinel (Z.to_nat (top_num_of x1 y1 x2 y2)))) /\
    find_light_intensity img gray x1 y1 x2 y2 =
      Some (cv_intensity
              (fold_left brighter
                 (candidates img gray dc (region x1 y1 x2 y2)
                    (repeat sentinel (Z.to_nat (top_num_of x1 y1 x2 y2))))
                 max0)).
Proof.
  intros Hi Hg.
  destruct (find_dark_channel_spec img x1 y1 x2 y2 Hi) as [xw [yw [_ [Edc _]]]].
  exists (scalar_min (imageData img yw xw) 3).
  split; [exact Edc|]. split; [apply scalar_min_range|].
  assert (Efill : fill_top img gray (scalar_min (imageData img yw xw) 3)
                    (top_num_of x1 y1 x2 y2) x1 y1 x2 y2
                    (init_top (top_num_of x1 y1 x2 y2)) =
                  Some (candidates img gray (scalar_min (imageData img yw xw) 3)
                          (region x1 y1 x2 y2)
                          (repeat sentinel (Z.to_nat (top_num_of x1 y1 x2 y2))))).
  { rewrite init_top_repeat. apply fill_top_spec; auto.
    now rewrite repeat_length. }
  split; [exact Efill|].
  unfold find_light_intensity. rewrite Edc. simpl. rewrite Efill. simpl.
  rewrite select_max_fold; [reflexivity|].
  now rewrite candidates_length, repeat_length.
Qed.

Lemma first_fit_replace_In (slots : list channel_value_t) (p c : channel_value_t) :
  In c (first_fit_replace slots p) -> c = p \/ In c slots.
Proof.
  induction slots as [|s rest IH]; simpl; auto.
  destruct (pair_ltb _ _); simpl; intros [<-|H]; auto.
  destruct (IH H); auto.
Qed.

(** Every candidate is a sentinel or the record of a scanned pixel. *)
Lemma candidates_In (img gray : IplImage) (dc : Z) (d : list (Z * Z)) (n : nat)
    (c : channel_value_t) :
  In c (candidates img gray dc d (repeat sentinel n)) ->
  c = sentinel \/ exists p, In p d /\ c = pixel_record img gray dc p.
Proof.
  revert c. pattern d, (candidates img gray dc d (repeat sentinel n)).
  apply fold_left_invariant with
    (step := fun t c => first_fit_replace t (pixel_record img gray dc c)).
  - intros c Hc. left. eapply repeat_spec; eauto.
  - intros d' p r top _ IH c Hc. apply first_fit_replace_In in Hc.
    destruct Hc as [->|Hc].
    + right. exists p. split; auto. apply in_or_app. simpl. auto.
    + destruct (IH c Hc) as [->|[q [Hq ->]]]; auto.
      right. exists q. split; auto. apply in_or_app. auto.
Qed.

Lemma pair_ltb_true (a b : Q * Q) :
  pair_ltb a b = true <->
  ((fst a < fst b)%Q \/ ((fst a == fst b)%Q /\ (snd a < snd b)%Q)).
Proof.
  unfold pair_ltb. rewrite orb_true_iff, andb_true_iff, !Qltb_lt, Qeqb_eq.
  reflexivity.
Qed.

Lemma pair_ltb_false (a b : Q * Q) :
  pair_ltb a b = false <->
  ((fst b <= fst a)%Q /\ (~ (fst a == fst b)%Q \/ (snd b <= snd a)%Q)).
Proof.
  unfold pair_ltb. rewrite orb_false_iff, andb_false_iff, !Qltb_ge.
  split; intros [H1 H2]; split; auto.
  - destruct H2 as [H2|H2]; auto. left. intros E. apply Qeqb_eq in E. congruence.
  - destruct H2 as [H2|H2]; auto. left.
    destruct (Qeqb (fst a) (fst b)) eqn:E; auto. apply Qeqb_eq in E. tauto.
Qed.

Lemma coord_eq_dec (c c' : Z * Z) : {c = c'} + {c <> c'}.
Proof. decide equality; apply Z.eq_dec. Qed.

Lemma pair_ltb_irrefl (a : Q * Q) : pair_ltb a a = false.
Proof. apply pair_ltb_false. split; [lra | right; lra]. Qed.

(** Once a pixel whose dark channel value exceeds that of every other pixel
    has been scanned, it holds the first slot for the rest of the scan. *)
Lemma candidates_head (img gray : IplImage) (dc : Z) (star : Z * Z) (n : nat)
    (l : list (Z * Z)) :
  (-1 < cv_val (pixel_record img gray dc star))%Q ->
  (forall p, In p l -> p <> star ->
     (cv_val (pixel_record img gray dc p)
      < cv_val (pixel_record img gray dc star))%Q) ->
  In star l ->
  exists rest,
    candidates img gray dc l (repeat sentinel (S n)) =
    pixel_record img gray dc star :: rest.
Proof.
  intros Hpos Hmax Hin.
  destruct (fold_left_invariant
              (fun t c => first_fit_replace t (pixel_record img gray dc c))
              (fun d top =>
                 top = candidates img gray dc d (repeat sentinel (S n)) /\
                 (In star d -> exists rest,
                    top = pixel_record img gray dc star :: rest))
              l (repeat sentinel (S n))) as [_ G]; [| | exact (G Hin)].
  - split; [reflexivity | intros []].
  - intros d c r top E [-> IH]. split; [symmetry; apply candidates_snoc|].
    intros Hs.
    assert (Hlen : length (candidates img gray dc d (repeat sentinel (S n))) = S n)
      by (rewrite candidates_length; apply repeat_length).
    destruct (candidates img gray dc d (repeat sentinel (S n)))
      as [|s rest] eqn:Etop; [discriminate|].
    assert (Hsub : forall p, In p d -> In p l)
      by (intros p Hp; rewrite E; apply in_or_app; auto).
    simpl. destruct (coord_eq_dec c star) as [->|Hne].
    + assert (Hs0 : In s (candidates img gray dc d (repeat sentinel (S n))))
        by (rewrite Etop; simpl; auto).
      apply candidates_In in Hs0. destruct Hs0 as [->|[p [Hp ->]]].
      * replace (pair_ltb _ _) with true; [eauto|].
        symmetry. apply pair_ltb_true. left. exact Hpos.
      * destruct (coord_eq_dec p star) as [->|Hp'].
        -- rewrite pair_ltb_irrefl. eauto.
        -- replace (pair_ltb _ _) with true; [eauto|].
           symmetry. apply pair_ltb_true. left. simpl. apply Hmax; auto.
    + assert (Hd : In star d).
      { apply in_app_or in Hs. destruct Hs as [Hs|[Hs|[]]]; auto. congruence. }
      destruct (IH Hd) as [rest' Er]. inversion Er; subst s rest'.
      replace (pair_ltb _ _) with false; [eauto|].
      symmetry. apply pair_ltb_false. simpl.
      assert (Hlt := Hmax c (ltac:(rewrite E; apply in_or_app; simpl; auto)) Hne).
      simpl in Hlt. split; [lra|]. left. intros Heq. rewrite Heq in Hlt. lra.
Qed.

(** ** [main] *)

(** The window of a pixel is the 20 x 20 square around it, cut at the edges
    of the image. *)
Lemma window_eq (size : CvSize) (x y : Z) :
  window size x y =
  (Z.max (x - 10) 0, Z.max (y - 10) 0,
   Z.min (x + 10) (size_width size), Z.min (y + 10) (size_height size)).
Proof.
  unfold window, MAP_WIDTH. change (Z.quot 20 2) with 10.
  rewrite !Z.gtb_ltb.
  destruct (Z.ltb_spec 0 (x - 10)), (Z.ltb_spec 0 (y - 10)),
    (Z.leb_spec (x + 10) (size_width size)),
    (Z.leb_spec (y + 10) (size_height size));
    repeat (first [ rewrite Z.max_l by lia | rewrite Z.max_r by lia
                  | rewrite Z.min_l by lia | rewrite Z.min_r by lia ]);
    reflexivity.
Qed.

Lemma window_region_ok (img : IplImage) (x y : Z) :
  0 <= x < width img -> 0 <= y < height img ->
  region_ok img (Z.max (x - 10) 0) (Z.max (y - 10) 0)
    (Z.min (x + 10) (width img)) (Z.min (y + 10) (height img)).
Proof. unfold region_ok. lia. Qed.

Lemma cvSet2D_in (img : IplImage) (y x : Z) (sc : CvScalar) :
  0 <= y < height img -> 0 <= x < width img ->
  cvSet2D img y x sc = Some (set_pixel img y x sc).
Proof.
  intros Hy Hx. unfold cvSet2D, in_image.
  replace (0 <=? y) with true by (symmetry; apply Z.leb_le; lia).
  replace (y <? height img) with true by (symmetry; apply Z.ltb_lt; lia).
  replace (0 <=? x) with true by (symmetry; apply Z.leb_le; lia).
  replace (x <? width img) with true by (symmetry; apply Z.ltb_lt; lia).
  reflexivity.
Qed.

Lemma recover_pixel_3 (img : IplImage) (light_intensity t : Q) (y x : Z)
    (out_pixel : CvScalar) :
  0 <= y < height img -> 0 <= x < width img ->
  recover_pixel img light_intensity t 3 y x out_pixel =
  Some (mkScalar (recovered (imageData img y x) 0 light_intensity t)
          (recovered (imageData img y x) 1 light_intensity t)
          (recovered (imageData img y x) 2 light_intensity t)
          (val3 out_pixel)).
Proof.
  intros Hy Hx. unfold recover_pixel, for_range.
  change (range 0 3) with [0; 1; 2]. simpl.
  rewrite (cvGet2D_in img y x Hy Hx). reflexivity.
Qed.

Lemma main_step_spec (img : IplImage) (light_intensity : Q) (y x : Z)
    (map out : IplImage) :
  0 <= y < height img -> 0 <= x < width img ->
  width map = width img -> height map = height img ->
  width out = width img -> height out = height img -> nChannels out = 3 ->
  exists mp op,
    main_step img light_intensity (cvGetSize img) y x (map, out) =
      Some (set_pixel map y x mp, set_pixel out y x op) /\
    pixel_done img light_intensity y x mp op.
Proof.
  intros Hy Hx Hmw Hmh How Hoh Hoc.
  destruct (find_dark_channel_spec img _ _ _ _ (window_region_ok img x y Hx Hy))
    as [xw [yw [_ [Edc _]]]].
  unfold main_step. rewrite window_eq. simpl size_width. simpl size_height.
  cbv iota beta. rewrite Edc. simpl bind at 1.
  rewrite (cvGet2D_in img y x Hy Hx). simpl bind at 1.
  rewrite cvSet2D_in by lia. simpl bind at 1.
  rewrite Hoc, recover_pixel_3 by assumption. simpl bind at 1.
  rewrite cvSet2D_in by lia. simpl bind at 1.
  eexists; eexists; split; [reflexivity|].
  exists (scalar_min (imageData img yw xw) 3).
  split; [exact Edc|]. split; [apply scalar_min_range|]. split; [reflexivity|].
  intros k Hk. assert (Hc : k = 0 \/ k = 1 \/ k = 2) by lia.
  destruct Hc as [-> | [-> | ->]]; reflexivity.
Qed.

(** [main_loop] does not fail on a three-channel image, and leaves at every
    pixel the values of [pixel_done]. *)
Lemma main_loop_spec (img : IplImage) (light_intensity : Q) :
  nChannels img = 3 ->
  exists map out,
    main_loop img light_intensity = Some (map, out) /\
    forall x y, 0 <= x < width img -> 0 <= y < height img ->
      pixel_done img light_intensity y x (imageData map y x) (imageData out y x).
Proof.
  intros Hch. unfold main_loop. rewrite for_range_region. simpl size_width.
  simpl size_height.
  destruct (foldM_invariant
              (fun c => main_step img light_intensity (cvGetSize img) (fst c) (snd c))
              (main_inv img light_intensity)
              (region 0 0 (width img) (height img))
              (cvCreateImage (cvGetSize img) (depth img) 1,
               cvCreateImage (cvGetSize img) (depth img) (nChannels img)))
    as [[map out] [E [_ [_ Hdone]]]].
  - repeat split; simpl; auto. intros c [].
  - intros d c r [map out] E [[Hmw Hmh] [[How [Hoh Hoc]] Hdone]].
    cbn [fst snd] in *.
    assert (Hc : In c (region 0 0 (width img) (height img)))
      by (rewrite E; apply in_or_app; simpl; auto).
    destruct c as [y x]. apply region_In in Hc. cbn [fst snd].
    destruct (main_step_spec img light_intensity y x map out)
      as [mp [op [Estep Hpix]]]; try tauto.
    eexists; split; [exact Estep|].
    repeat split; simpl; auto.
    intros c' Hc'. destruct (coord_eq_dec c' (y, x)) as [->|Hne].
    + simpl. rewrite !Z.eqb_refl. simpl. exact Hpix.
    + destruct c' as [y' x']. simpl.
      destruct (Z.eqb_spec y' y), (Z.eqb_spec x' x); simpl;
        try (subst; congruence);
        (apply in_app_or in Hc'; destruct Hc' as [Hc'|[Hc'|[]]];
         [exact (Hdone (y', x') Hc') | congruence]).
  - exists map, out. split; [exact E|].
    intros x y Hx Hy. apply (Hdone (y, x)). apply region_In. lia.
Qed.

(** The loops of [main] keep the size, the channel count and the depth of
    the two images they fill. *)
Lemma main_loop_images (img : IplImage) (light_intensity : Q)
    (map out : IplImage) :
  nChannels img = 3 ->
  main_loop img light_intensity = Some (map, out) ->
  (width map = width img /\ height map = height img /\
   nChannels map = 1 /\ depth map = depth img) /\
  (width out = width img /\ height out = height img /\
   nChannels out = 3 /\ depth out = depth img).
Proof.
  intros Hch E. unfold main_loop in E. rewrite for_range_region in E.
  simpl size_width in E. simpl size_height in E.
  destruct (foldM_invariant
              (fun c => main_step img light_intensity (cvGetSize img) (fst c) (snd c))
              (fun _ st =>
                 (width (fst st) = width img /\ height (fst st) = height img /\
                  nChannels (fst st) = 1 /\ depth (fst st) = depth img) /\
                 (width (snd st) = width img /\ height (snd st) = height img /\
                  nChannels (snd st) = 3 /\ depth (snd st) = depth img))
              (region 0 0 (width img) (height img))
              (cvCreateImage (cvGetSize img) (depth img) 1,
               cvCreateImage (cvGetSize img) (depth img) (nChannels img)))
    as [st [E' H]].
  - simpl. auto 10.
  - intros d [y x] r [m o] El [[Hmw [Hmh [Hmc Hmd]]] [How [Hoh [Hoc Hod]]]].
    cbn [fst snd] in *.
    assert (Hc : In (y, x) (region 0 0 (width img) (height img)))
      by (rewrite El; apply in_or_app; simpl; auto).
    apply region_In in Hc.
    destruct (main_step_spec img light_intensity y x m o)
      as [mp [op [Estep _]]]; try tauto.
    eexists; split; [exact Estep|]. simpl. auto 10.
  - rewrite E in E'. inversion E'; subst st. exact H.
Qed.

(** ** The conversion to the depth of an image *)

Lemma cvRound_bounds (q : Q) :
  (inject_Z (cvRound q) - (1 # 2) <= q)%Q /\
  (q <= inject_Z (cvRound q) + (1 # 2))%Q.
Proof.
  unfold cvRound.
  assert (Hlo := Qfloor_le q). assert (Hhi := Qlt_floor q).
  rewrite inject_Z_plus in Hhi. change (inject_Z 1) with 1%Q in Hhi.
  destruct (Qltb (q - inject_Z (Qfloor q)) (1 # 2)) eqn:E1.
  - apply Qltb_lt in E1. split; lra.
  - apply Qltb_ge in E1.
    destruct (Qltb (1 # 2) (q - inject_Z (Qfloor q))) eqn:E2.
    + rewrite inject_Z_plus. change (inject_Z 1) with 1%Q. split; lra.
    + apply Qltb_ge in E2. destruct (Z.even (Qfloor q)).
      * split; lra.
      * rewrite inject_Z_plus. change (inject_Z 1) with 1%Q. split; lra.
Qed.

Lemma Zle_of_Qlt (a b : Z) : (inject_Z a < inject_Z b + 1)%Q -> a <= b.
Proof.
  intros H. change 1%Q with (inject_Z 1) in H. rewrite <- inject_Z_plus in H.
  rewrite <- Zlt_Qlt in H. lia.
Qed.

(** The 8-bit store of a value: an integer of 0..255, 0 for a value at most
    0, 255 for a value at least 255, and within 1/2 of a value between. *)
Lemma store_8u_spec (q : Q) :
  0 <= saturate_8u (cvRound q) <= 255 /\
  ((q <= 0)%Q -> saturate_8u (cvRound q) = 0) /\
  ((255 <= q)%Q -> saturate_8u (cvRound q) = 255) /\
  ((0 <= q <= 255)%Q ->
   (inject_Z (saturate_8u (cvRound q)) - (1 # 2) <= q)%Q /\
   (q <= inject_Z (saturate_8u (cvRound q)) + (1 # 2))%Q).
Proof.
  destruct (cvRound_bounds q) as [Hlo Hhi]. unfold saturate_8u.
  destruct (Z.ltb_spec (cvRound q) 0) as [Hneg|Hnn];
    [|destruct (Z.ltb_spec 255 (cvRound q)) as [Hbig|Hle]].
  - split; [lia|]. split; [reflexivity|]. split.
    + intros Hq. exfalso.
      assert (H : 255 <= cvRound q).
      { apply Zle_of_Qlt. change (inject_Z 255) with 255%Q. lra. }
      lia.
    + intros [Hq _]. exfalso.
      assert (H : 0 <= cvRound q).
      { apply Zle_of_Qlt. change (inject_Z 0) with 0%Q. lra. }
      lia.
  - split; [lia|]. split; [|split].
    + intros Hq. exfalso.
      assert (H : cvRound q <= 0) by (apply Zle_of_Qlt; change (inject_Z 0) with 0%Q; lra).
      lia.
    + reflexivity.
    + intros [_ Hq]. exfalso.
      assert (H : cvRound q <= 255)
        by (apply Zle_of_Qlt; change (inject_Z 255) with 255%Q; lra).
      lia.
  - split; [lia|]. split; [|split].
    + intros Hq.
      assert (H : cvRound q <= 0) by (apply Zle_of_Qlt; change (inject_Z 0) with 0%Q; lra).
      lia.
    + intros Hq.
      assert (H : 255 <= cvRound q).
      { apply Zle_of_Qlt. change (inject_Z 255) with 255%Q. lra. }
      lia.
    + intros _. split; assumption.
Qed.

Lemma val_stored (d : depth_t) (channels : Z) (sc : CvScalar) (k : Z) :
  0 <= k < channels -> channels <= 4 ->
  val (stored d channels sc) k = to_depth d (val sc k).
Proof.
  intros Hk Hc. assert (Hk' : k = 0 \/ k = 1 \/ k = 2 \/ k = 3) by lia.
  destruct Hk' as [-> | [-> | [-> | ->]]]; cbn [val stored val0 val1 val2 val3];
    [ replace (0 <? channels) with true by (symmetry; apply Z.ltb_lt; lia)
    | replace (1 <? channels) with true by (symmetry; apply Z.ltb_lt; lia)
    | replace (2 <? channels) with true by (symmetry; apply Z.ltb_lt; lia)
    | replace (3 <? channels) with true by (symmetry; apply Z.ltb_lt; lia) ];
    reflexivity.
Qed.

(** * The properties *)

(** ** Dark channel extractor *)

(** C3.  On every non-empty region inside the image, [find_dark_channel]
    returns one of the three channel indices, and the value of the winning
    pixel on that index is below or equal to every channel value, hence to
    the minimum channel value, of every pixel of the region. *)
Theorem C3_dark_channel_minimal (img : IplImage) (x1 y1 x2 y2 : Z) :
  region_ok img x1 y1 x2 y2 ->
  exists dc xw yw,
    find_dark_channel img x1 y1 x2 y2 = Some dc /\
    0 <= dc < 3 /\
    (x1 <= xw < x2 /\ y1 <= yw < y2) /\
    forall x y, x1 <= x < x2 -> y1 <= y < y2 ->
    forall k, 0 <= k < 3 ->
      (val (imageData img yw xw) dc <= val (imageData img y x) k)%Q.
Proof.
  intros Hok.
  destruct (find_dark_channel_spec img x1 y1 x2 y2 Hok)
    as [xw [yw [Hw [Edc [Hle _]]]]].
  exists (scalar_min (imageData img yw xw) 3), xw, yw.
  split; [exact Edc|]. split; [apply scalar_min_range|]. split; [exact Hw|].
  intros x y Hx Hy k Hk.
  apply Qle_trans with (min_val (imageData img y x)).
  - apply (Hle x y Hx Hy).
  - apply scalar_min_spec. exact Hk.
Qed.

(** C8.  The tie-breaking of [find_dark_channel]: the winning pixel is the
    first pixel in row-major order whose minimum channel value is the
    smallest of the region (every pixel before it has all its channel values
    strictly above), and the index returned is the first index of the
    winner's channels, in the image's BGR order, that holds its minimum.  On
    a region whose pixels all hold one value the result is the first minimal
    index of that value, which is 0 when its three channels are equal. *)
Theorem C8_dark_channel_tie_break (img : IplImage) (x1 y1 x2 y2 : Z) :
  region_ok img x1 y1 x2 y2 ->
  exists dc xw yw,
    find_dark_channel img x1 y1 x2 y2 = Some dc /\
    (x1 <= xw < x2 /\ y1 <= yw < y2) /\
    (forall x y, x1 <= x < x2 -> y1 <= y < y2 -> forall k, 0 <= k < 3 ->
       (val (imageData img yw xw) dc <= val (imageData img y x) k)%Q) /\
    (forall x y, x1 <= x < x2 -> y1 <= y < y2 -> before (y, x) (yw, xw) ->
       forall k, 0 <= k < 3 ->
       (val (imageData img yw xw) dc < val (imageData img y x) k)%Q) /\
    (forall k, 0 <= k < dc ->
       (val (imageData img yw xw) dc < val (imageData img yw xw) k)%Q) /\
    (forall sc,
       (forall x y, x1 <= x < x2 -> y1 <= y < y2 -> imageData img y x = sc) ->
       (xw = x1 /\ yw = y1) /\
       dc = scalar_min sc 3 /\
       (forall k, 0 <= k < 3 -> (val sc dc <= val sc k)%Q) /\
       (forall k, 0 <= k < dc -> (val sc dc < val sc k)%Q) /\
       ((val sc 0 <= val sc 1)%Q -> (val sc 0 <= val sc 2)%Q -> dc = 0)).
Proof.
  intros Hok.
  destruct (find_dark_channel_spec img x1 y1 x2 y2 Hok)
    as [xw [yw [Hw [Edc [Hle Hlt]]]]].
  destruct (scalar_min_spec (imageData img yw xw)) as [Hr [Hmin Hfirst]].
  exists (scalar_min (imageData img yw xw) 3), xw, yw.
  split; [exact Edc|]. split; [exact Hw|]. split; [|split; [|split]].
  - intros x y Hx Hy k Hk.
    apply Qle_trans with (min_val (imageData img y x)).
    + apply (Hle x y Hx Hy).
    + apply scalar_min_spec. exact Hk.
  - intros x y Hx Hy Hb k Hk.
    apply Qlt_le_trans with (min_val (imageData img y x)).
    + apply (Hlt x y Hx Hy Hb).
    + apply scalar_min_spec. exact Hk.
  - exact Hfirst.
  - intros sc Hsc.
    assert (Hfst : xw = x1 /\ yw = y1).
    { destruct (coord_eq_dec (y1, x1) (yw, xw)) as [E|Hne].
      - inversion E. auto.
      - exfalso.
        assert (Hb : before (y1, x1) (yw, xw)).
        { unfold before. simpl.
          destruct (Z.eq_dec y1 yw) as [->|Hy];
            [right; split; auto;
             destruct (Z.eq_dec x1 xw) as [->|Hx]; [congruence | lia]
            | left; lia]. }
        unfold region_ok in Hok.
        assert (H1 := Hlt x1 y1 ltac:(lia) ltac:(lia) Hb).
        rewrite (Hsc x1 y1), (Hsc xw yw) in H1 by lia. lra. }
    split; [exact Hfst|].
    rewrite (Hsc xw yw) in * by tauto.
    fold (min_val sc) in *.
    split; [reflexivity|]. split; [exact Hmin|]. split; [exact Hfirst|].
    intros H01 H02. rewrite scalar_min_3.
    change (val sc 0) with (val0 sc) in *. change (val sc 1) with (val1 sc) in *.
    change (val sc 2) with (val2 sc) in *.
    replace (Qltb (val1 sc) (val0 sc)) with false
      by (symmetry; apply Qltb_ge; assumption).
    replace (Qltb (val2 sc) (val0 sc)) with false
      by (symmetry; apply Qltb_ge; assumption).
    reflexivity.
Qed.

Lemma C3_dark_channel_minimal_witness :
  region_ok ramp_image 1 0 4 2 /\
  exists dc xw yw,
    find_dark_channel ramp_image 1 0 4 2 = Some dc /\
    0 <= dc < 3 /\
    (1 <= xw < 4 /\ 0 <= yw < 2) /\
    forall x y, 1 <= x < 4 -> 0 <= y < 2 ->
    forall k, 0 <= k < 3 ->
      (val (imageData ramp_image yw xw) dc <= val (imageData ramp_image y x) k)%Q.
Proof.
  split.
  - unfold region_ok. simpl. lia.
  - apply (C3_dark_channel_minimal ramp_image 1 0 4 2).
    unfold region_ok. simpl. lia.
Defined.

Lemma C8_dark_channel_tie_break_witness :
  region_ok (const_image 6 5 (cvScalar 8 8 8 0)) 0 0 6 5 /\
  exists dc xw yw,
    find_dark_channel (const_image 6 5 (cvScalar 8 8 8 0)) 0 0 6 5 = Some dc /\
    (0 <= xw < 6 /\ 0 <= yw < 5) /\
    (forall x y, 0 <= x < 6 -> 0 <= y < 5 -> forall k, 0 <= k < 3 ->
       (val (imageData (const_image 6 5 (cvScalar 8 8 8 0)) yw xw) dc
        <= val (imageData (const_image 6 5 (cvScalar 8 8 8 0)) y x) k)%Q) /\
    (forall x y, 0 <= x < 6 -> 0 <= y < 5 -> before (y, x) (yw, xw) ->
       forall k, 0 <= k < 3 ->
       (val (imageData (const_image 6 5 (cvScalar 8 8 8 0)) yw xw) dc
        < val (imageData (const_image 6 5 (cvScalar 8 8 8 0)) y x) k)%Q) /\
    (forall k, 0 <= k < dc ->
       (val (imageData (const_image 6 5 (cvScalar 8 8 8 0)) yw xw) dc
        < val (imageData (const_image 6 5 (cvScalar 8 8 8 0)) yw xw) k)%Q) /\
    (forall sc,
       (forall x y, 0 <= x < 6 -> 0 <= y < 5 ->
          imageData (const_image 6 5 (cvScalar 8 8 8 0)) y x = sc) ->
       (xw = 0 /\ yw = 0) /\
       dc = scalar_min sc 3 /\
       (forall k, 0 <= k < 3 -> (val sc dc <= val sc k)%Q) /\
       (forall k, 0 <= k < dc -> (val sc dc < val sc k)%Q) /\
       ((val sc 0 <= val sc 1)%Q -> (val sc 0 <= val sc 2)%Q -> dc = 0)).
Proof.
  split.
  - unfold region_ok. simpl. lia.
  - apply (C8_dark_channel_tie_break (const_image 6 5 (cvScalar 8 8 8 0)) 0 0 6 5).
    unfold region_ok. simpl. lia.
Defined.

(** ** Transmission map builder: the window *)

(** C6.  The window of a pixel of the image is [x - 10, x + 10) x
    [y - 10, y + 10) cut to [0, width) x [0, height): it lies inside the
    image and contains the pixel, so it is not empty, and the dark channel
    extractor succeeds on it.  At pixel (0, 0) of an image at least 10 wide
    and 10 high the window is [0, 10) x [0, 10). *)
Theorem C6_window_clamped (size : CvSize) (x y : Z) :
  0 <= x < size_width size -> 0 <= y < size_height size ->
  exists x_low y_low x_high y_high,
    window size x y = (x_low, y_low, x_high, y_high) /\
    (x_low = Z.max (x - 10) 0 /\ x_high = Z.min (x + 10) (size_width size)) /\
    (y_low = Z.max (y - 10) 0 /\ y_high = Z.min (y + 10) (size_height size)) /\
    (0 <= x_low <= x /\ x < x_high <= size_width size) /\
    (0 <= y_low <= y /\ y < y_high <= size_height size) /\
    (forall x' y',
       (x_low <= x' < x_high /\ y_low <= y' < y_high) <->
       ((x - 10 <= x' < x + 10 /\ 0 <= x' < size_width size) /\
        (y - 10 <= y' < y + 10 /\ 0 <= y' < size_height size))) /\
    (forall img, cvGetSize img = size ->
       exists dc, find_dark_channel img x_low y_low x_high y_high = Some dc) /\
    (x = 0 -> y = 0 -> 10 <= size_width size -> 10 <= size_height size ->
     (x_low, y_low, x_high, y_high) = (0, 0, 10, 10) /\
     x_high - x_low = 10 /\ y_high - y_low = 10).
Proof.
  intros Hx Hy.
  exists (Z.max (x - 10) 0), (Z.max (y - 10) 0),
    (Z.min (x + 10) (size_width size)), (Z.min (y + 10) (size_height size)).
  split; [apply window_eq|].
  split; [auto|]. split; [auto|]. split; [lia|]. split; [lia|].
  split; [intros; lia|]. split.
  - intros img <-. simpl in *.
    destruct (find_dark_channel_spec img _ _ _ _ (window_region_ok img x y Hx Hy))
      as [xw [yw [_ [Edc _]]]].
    eexists. exact Edc.
  - intros -> -> Hw Hh.
    replace (Z.max (0 - 10) 0) with 0 by lia.
    replace (Z.min (0 + 10) (size_width size)) with 10 by lia.
    replace (Z.min (0 + 10) (size_height size)) with 10 by lia.
    repeat split; reflexivity.
Qed.

Lemma C6_window_clamped_witness :
  (0 <= 0 < size_width (mkSize 100 60) /\ 0 <= 0 < size_height (mkSize 100 60)) /\
  window (mkSize 100 60) 0 0 = (0, 0, 10, 10).
Proof.
  split.
  - simpl. lia.
  - destruct (C6_window_clamped (mkSize 100 60) 0 0) as
      [xl [yl [xh [yh [E [_ [_ [_ [_ [_ [_ H]]]]]]]]]]]; simpl; try lia.
    rewrite E. apply H; simpl; lia.
Defined.

(** ** Transmission map builder and radiance recoverer *)


Lemma transmission_le_1 (v l : Q) :
  (0 < l)%Q -> (0 <= v)%Q -> (1 - v / l <= 1)%Q.
Proof.
  intros Hl Hv.
  assert (H : (0 <= v / l)%Q) by (apply Qle_shift_div_l; [exact Hl | lra]).
  set (q := (v / l)%Q) in *. lra.
Qed.








(** ** Atmospheric light estimator *)

(** C7.  On a region of at least 1000 pixels, the precondition under which
    the candidate set is specified, [find_light_intensity] sets up a
    candidate array of floor (area x 0.001) slots, which is at least 1, each
    slot holding the sentinel whose fields are all -1. *)
Theorem C7_candidate_set_size (x1 y1 x2 y2 : Z) :
  0 <= x1 < x2 -> x2 <= INT_MAX -> 0 <= y1 < y2 -> y2 <= INT_MAX ->
  1000 <= (x2 - x1) * (y2 - y1) <= INT_MAX ->
  top_num_of x1 y1 x2 y2 =
    Z.max 1 (Qfloor (inject_Z ((x2 - x1) * (y2 - y1)) * (1 # 1000))) /\
  top_num_of x1 y1 x2 y2 =
    Qfloor (inject_Z ((x2 - x1) * (y2 - y1)) * (1 # 1000)) /\
  1 <= top_num_of x1 y1 x2 y2 /\
  init_top (top_num_of x1 y1 x2 y2) =
    repeat (mkChannelValue (-1) (-1) (-1) (-1))
      (Z.to_nat (top_num_of x1 y1 x2 y2)) /\
  Z.of_nat (length (init_top (top_num_of x1 y1 x2 y2))) =
    top_num_of x1 y1 x2 y2.
Proof.
  intros Hx Hx2 Hy Hy2 Harea.
  assert (Hn : top_num_of x1 y1 x2 y2 = (x2 - x1) * (y2 - y1) / 1000)
    by (apply top_num_of_div; lia).
  assert (Hf : Qfloor (inject_Z ((x2 - x1) * (y2 - y1)) * (1 # 1000)) =
               (x2 - x1) * (y2 - y1) / 1000)
    by (unfold Qfloor; simpl; rewrite Z.mul_1_r; reflexivity).
  assert (Hp : 1 <= (x2 - x1) * (y2 - y1) / 1000)
    by (apply Z.div_le_lower_bound; lia).
  rewrite Hf, Hn. split; [lia|]. split; [reflexivity|]. split; [exact Hp|].
  rewrite init_top_repeat, repeat_length. split; [reflexivity | lia].
Qed.

Lemma C7_candidate_set_size_witness :
  init_top (top_num_of 0 0 50 40) = [sentinel; sentinel].
Proof.
  destruct (C7_candidate_set_size 0 0 50 40) as [_ [_ [_ [E _]]]];
    try (unfold INT_MAX; lia).
  rewrite E. reflexivity.
Defined.

(** The first-fit rule, told from outside: when no slot is below the pixel
    the slots are unchanged; otherwise the first slot below the pixel is
    replaced by it and no other slot changes. *)
Lemma first_fit_replace_rule (slots : list channel_value_t) (p : channel_value_t) :
  ((forall s, In s slots ->
      pair_ltb (cv_val s, cv_intensity s) (cv_val p, cv_intensity p) = false) /\
   first_fit_replace slots p = slots) \/
  (exists pre s suf,
     slots = pre ++ s :: suf /\
     (forall s', In s' pre ->
        pair_ltb (cv_val s', cv_intensity s') (cv_val p, cv_intensity p) = false) /\
     pair_ltb (cv_val s, cv_intensity s) (cv_val p, cv_intensity p) = true /\
     first_fit_replace slots p = pre ++ p :: suf).
Proof.
  induction slots as [|s rest IH]; simpl.
  - left. split; [intros s []|reflexivity].
  - destruct (pair_ltb (cv_val s, cv_intensity s) (cv_val p, cv_intensity p)) eqn:E.
    + right. exists [], s, rest. simpl. repeat split; auto. intros s' [].
    + destruct IH as [[Hall Eq]|[pre [s0 [suf [Eq [Hpre [Hs0 Er]]]]]]].
      * left. split; [|now rewrite Eq]. intros s' [<-|Hs']; auto.
      * right. exists (s :: pre), s0, suf. simpl. rewrite Er, Eq.
        repeat split; auto. intros s' [<-|Hs']; auto.
Qed.

(** C4.  [find_light_intensity] scans the region in row-major order and
    inserts each pixel by the first-fit replacement rule on the pairs
    (dark channel value, intensity); it returns the largest intensity among
    the candidates left by the scan. *)
Theorem C4_first_fit_and_brightest (img gray : IplImage) (x1 y1 x2 y2 : Z) :
  region_ok img x1 y1 x2 y2 -> region_ok gray x1 y1 x2 y2 ->
  pixels_nonneg gray ->
  exists dc top r,
    find_dark_channel img x1 y1 x2 y2 = Some dc /\
    fill_top img gray dc (top_num_of x1 y1 x2 y2) x1 y1 x2 y2
      (init_top (top_num_of x1 y1 x2 y2)) = Some top /\
    top =
      fold_left
        (fun t c =>
           first_fit_replace t
             (mkChannelValue (snd c) (fst c)
                (val (imageData img (fst c) (snd c)) dc)
                (val (imageData gray (fst c) (snd c)) 0)))
        (region x1 y1 x2 y2)
        (repeat sentinel (Z.to_nat (top_num_of x1 y1 x2 y2))) /\
    find_light_intensity img gray x1 y1 x2 y2 = Some r /\
    (forall c, In c top -> (cv_intensity c <= r)%Q) /\
    (top <> [] -> exists c, In c top /\ r = cv_intensity c).
Proof.
  intros Hi Hg Hnn.
  destruct (find_light_intensity_spec img gray x1 y1 x2 y2 Hi Hg)
    as [dc [Edc [Hdc [Efill Eret]]]].
  set (top := candidates img gray dc (region x1 y1 x2 y2)
                (repeat sentinel (Z.to_nat (top_num_of x1 y1 x2 y2)))) in *.
  exists dc, top, (cv_intensity (fold_left brighter top max0)).
  split; [exact Edc|]. split; [exact Efill|]. split; [reflexivity|].
  split; [exact Eret|].
  destruct (fold_brighter_spec top max0) as [Hr [Hm Hall]].
  split; [exact Hall|].
  intros Hne. destruct Hr as [Hr|Hr].
  - destruct top as [|c0 rest] eqn:Etop; [congruence|].
    assert (Hc0 : In c0 top) by (rewrite Etop; simpl; auto).
    exists c0. split; [simpl; auto|].
    unfold top in Hc0. apply candidates_In in Hc0.
    destruct Hc0 as [->|[p [Hp ->]]].
    + rewrite Hr. reflexivity.
    + exfalso. assert (H1 := Hall _ (or_introl eq_refl)).
      rewrite Hr in H1. unfold pixel_record, max0 in H1.
      cbn [cv_intensity] in H1.
      destruct (region_ok_In gray x1 y1 x2 y2 p Hg Hp) as [Hin _].
      assert (H2 := Hnn (fst p) (snd p) 0).
      unfold region_ok in Hg. specialize (H2 ltac:(lia) ltac:(lia)). lra.
  - eexists. split; [exact Hr | reflexivity].
Qed.

Lemma spot_gray_nonneg : pixels_nonneg spot_gray.
Proof.
  intros y x k _ _. simpl.
  destruct ((y =? 3) && (x =? 5));
    (destruct k as [|p|p]; [|destruct p as [[p|p|]|[p|p|]|]|]); simpl; lra.
Qed.

Lemma spot_image_nonneg : pixels_nonneg spot_image.
Proof.
  intros y x k _ _. simpl.
  destruct ((y =? 3) && (x =? 5));
    (destruct k as [|p|p]; [|destruct p as [[p|p|]|[p|p|]|]|]); simpl; lra.
Qed.

Lemma C4_first_fit_and_brightest_witness :
  (region_ok spot_image 0 0 40 25 /\ region_ok spot_gray 0 0 40 25 /\
   pixels_nonneg spot_gray) /\
  exists dc top r,
    find_dark_channel spot_image 0 0 40 25 = Some dc /\
    fill_top spot_image spot_gray dc (top_num_of 0 0 40 25) 0 0 40 25
      (init_top (top_num_of 0 0 40 25)) = Some top /\
    top =
      fold_left
        (fun t c =>
           first_fit_replace t
             (mkChannelValue (snd c) (fst c)
                (val (imageData spot_image (fst c) (snd c)) dc)
                (val (imageData spot_gray (fst c) (snd c)) 0)))
        (region 0 0 40 25)
        (repeat sentinel (Z.to_nat (top_num_of 0 0 40 25))) /\
    find_light_intensity spot_image spot_gray 0 0 40 25 = Some r /\
    (forall c, In c top -> (cv_intensity c <= r)%Q) /\
    (top <> [] -> exists c, In c top /\ r = cv_intensity c).
Proof.
  assert (H1 : region_ok spot_image 0 0 40 25) by (unfold region_ok; simpl; lia).
  assert (H2 : region_ok spot_gray 0 0 40 25) by (unfold region_ok; simpl; lia).
  split.
  - split; [exact H1|]. split; [exact H2|]. exact spot_gray_nonneg.
  - exact (C4_first_fit_and_brightest spot_image spot_gray 0 0 40 25
             H1 H2 spot_gray_nonneg).
Defined.

(** C9.  When the candidate set has at least one slot and one pixel of the
    region has both a dark channel value and a grayscale intensity strictly
    above those of every other pixel of the region, [find_light_intensity]
    returns the grayscale intensity of that pixel. *)
Theorem C9_unique_brightest (img gray : IplImage) (x1 y1 x2 y2 dc xs ys : Z) :
  region_ok img x1 y1 x2 y2 -> region_ok gray x1 y1 x2 y2 ->
  pixels_nonneg img -> pixels_nonneg gray ->
  1 <= top_num_of x1 y1 x2 y2 ->
  find_dark_channel img x1 y1 x2 y2 = Some dc ->
  x1 <= xs < x2 -> y1 <= ys < y2 ->
  (forall x y, x1 <= x < x2 -> y1 <= y < y2 -> (y, x) <> (ys, xs) ->
     (val (imageData img y x) dc < val (imageData img ys xs) dc)%Q /\
     (val (imageData gray y x) 0 < val (imageData gray ys xs) 0)%Q) ->
  find_light_intensity img gray x1 y1 x2 y2 =
  Some (val (imageData gray ys xs) 0).
Proof.
  intros Hi Hg Hni Hng Hn Edc Hxs Hys Huniq.
  destruct (find_light_intensity_spec img gray x1 y1 x2 y2 Hi Hg)
    as [dc' [Edc' [_ [_ Eret]]]].
  assert (dc' = dc) by congruence. subst dc'.
  rewrite Eret. f_equal.
  destruct (Z.to_nat (top_num_of x1 y1 x2 y2)) as [|n] eqn:En; [lia|].
  set (top := candidates img gray dc (region x1 y1 x2 y2) (repeat sentinel (S n))).
  assert (Hstar : In (ys, xs) (region x1 y1 x2 y2)) by (apply region_In; lia).
  destruct (candidates_head img gray dc (ys, xs) n (region x1 y1 x2 y2))
    as [rest Ehead]; auto.
  - simpl. assert (H := Hni ys xs dc). unfold region_ok in Hi.
    specialize (H ltac:(lia) ltac:(lia)). lra.
  - intros [y x] Hp Hne. apply region_In in Hp. simpl.
    apply (Huniq x y); tauto.
  - fold top in Ehead.
    destruct (fold_brighter_spec top max0) as [Hr [Hm Hall]].
    assert (Hge : (val (imageData gray ys xs) 0
                   <= cv_intensity (fold_left brighter top max0))%Q).
    { apply (Hall (pixel_record img gray dc (ys, xs))).
      rewrite Ehead. simpl. auto. }
    assert (Hpos := Hng ys xs 0). unfold region_ok in Hg.
    specialize (Hpos ltac:(lia) ltac:(lia)).
    destruct Hr as [Hr|Hr].
    + exfalso. rewrite Hr in Hge. unfold max0 in Hge.
      cbn [cv_intensity] in Hge. lra.
    + unfold top in Hr at 2. apply candidates_In in Hr.
      destruct Hr as [Hr|[[y x] [Hp Hr]]].
      * exfalso. rewrite Hr in Hge. unfold sentinel in Hge.
        cbn [cv_intensity] in Hge. lra.
      * destruct (coord_eq_dec (y, x) (ys, xs)) as [E|Hne].
        -- rewrite Hr, E. reflexivity.
        -- exfalso. apply region_In in Hp.
           destruct (Huniq x y) as [_ Hlt]; try tauto.
           rewrite Hr in Hge. unfold pixel_record in Hge.
           cbn [cv_intensity fst snd] in Hge. lra.
Qed.

Lemma C9_unique_brightest_witness :
  find_light_intensity spot_image spot_gray 0 0 40 25 = Some 210%Q.
Proof.
  apply (C9_unique_brightest spot_image spot_gray 0 0 40 25 0 5 3).
  - unfold region_ok. simpl. lia.
  - unfold region_ok. simpl. lia.
  - exact spot_image_nonneg.
  - exact spot_gray_nonneg.
  - vm_compute. discriminate.
  - vm_compute. reflexivity.
  - lia.
  - lia.
  - intros x y Hx Hy Hne. simpl.
    destruct (Z.eqb_spec y 3) as [->|Hy3]; simpl.
    + destruct (Z.eqb_spec x 5) as [->|Hx5]; simpl.
      * congruence.
      * split; reflexivity.
    + split; reflexivity.
Defined.

(** On a region of fewer than 1000 pixels the candidate array is empty, the
    scan leaves it empty and the result is the start value of the selection
    loop. *)
Lemma find_light_intensity_small (img gray : IplImage) (x1 y1 x2 y2 : Z) :
  region_ok img x1 y1 x2 y2 -> region_ok gray x1 y1 x2 y2 ->
  (x2 - x1) * (y2 - y1) < 1000 ->
  top_num_of x1 y1 x2 y2 = 0 /\
  (exists dc,
     find_dark_channel img x1 y1 x2 y2 = Some dc /\
     fill_top img gray dc (top_num_of x1 y1 x2 y2) x1 y1 x2 y2
       (init_top (top_num_of x1 y1 x2 y2)) = Some []) /\
  find_light_intensity img gray x1 y1 x2 y2 = Some (-1)%Q.
Proof.
  intros Hi Hg Hsmall.
  destruct (region_ok_top_num img x1 y1 x2 y2 Hi) as [Hn _].
  assert (H0 : top_num_of x1 y1 x2 y2 = 0).
  { rewrite Hn. apply Z.div_small. unfold region_ok in Hi. nia. }
  destruct (find_light_intensity_spec img gray x1 y1 x2 y2 Hi Hg)
    as [dc [Edc [_ [Efill Eret]]]].
  rewrite H0 in Efill, Eret. simpl repeat in Efill, Eret.
  assert (Enil : candidates img gray dc (region x1 y1 x2 y2) [] = []).
  { apply length_zero_iff_nil. now rewrite candidates_length. }
  rewrite Enil in Efill, Eret.
  split; [exact H0|]. split.
  - exists dc. rewrite H0. split; [exact Edc | exact Efill].
  - exact Eret.
Qed.

(** C10.  When floor (area x 0.001) is zero, [find_light_intensity] does not
    fail: the candidate array is empty, the scan leaves it empty, and the
    function returns -1.  [main] then divides by this value without a
    check: every transmission estimate is [1 - v / (-1)]. *)
Theorem C10_empty_candidate_set (img gray : IplImage) :
  (forall x1 y1 x2 y2,
     region_ok img x1 y1 x2 y2 -> region_ok gray x1 y1 x2 y2 ->
     (x2 - x1) * (y2 - y1) < 1000 ->
     top_num_of x1 y1 x2 y2 = 0 /\
     (exists dc,
        find_dark_channel img x1 y1 x2 y2 = Some dc /\
        fill_top img gray dc (top_num_of x1 y1 x2 y2) x1 y1 x2 y2
          (init_top (top_num_of x1 y1 x2 y2)) = Some []) /\
     find_light_intensity img gray x1 y1 x2 y2 = Some (-1)%Q) /\
  (nChannels img = 3 -> 1 <= width img -> 1 <= height img ->
   width gray = width img -> height gray = height img ->
   width img * height img < 1000 ->
   exists map out,
     main img gray = Some (map, out) /\
     forall x y, 0 <= x < width img -> 0 <= y < height img ->
     exists dc,
       find_dark_channel img (Z.max (x - 10) 0) (Z.max (y - 10) 0)
         (Z.min (x + 10) (width img)) (Z.min (y + 10) (height img)) = Some dc /\
       imageData map y x =
         cvScalar ((1 - val (imageData img y x) dc / (-1)) * 255) 0 0 0).
Proof.
  split.
  - intros x1 y1 x2 y2. apply find_light_intensity_small.
  - intros Hch Hw Hh Hgw Hgh Hsmall.
    assert (Hi : region_ok img 0 0 (width img) (height img))
      by (unfold region_ok; lia).
    assert (Hg : region_ok gray 0 0 (width img) (height img))
      by (unfold region_ok; lia).
    destruct (find_light_intensity_small img gray 0 0 (width img) (height img)
                Hi Hg) as [_ [_ Eret]]; [lia|].
    destruct (main_loop_spec img (-1)%Q Hch) as [map [out [E Hdone]]].
    exists map, out. split.
    + unfold main. simpl size_width. simpl size_height. rewrite Eret. exact E.
    + intros x y Hx Hy.
      destruct (Hdone x y Hx Hy) as [dc [Edc [_ [Emap _]]]].
      exists dc. split; [exact Edc | exact Emap].
Qed.

Lemma C10_empty_candidate_set_witness :
  (region_ok ramp_image 0 0 4 3 /\ region_ok (gray_image 4 3 6) 0 0 4 3 /\
   (4 - 0) * (3 - 0) < 1000) /\
  find_light_intensity ramp_image (gray_image 4 3 6) 0 0 4 3 = Some (-1)%Q.
Proof.
  assert (H1 : region_ok ramp_image 0 0 4 3) by (unfold region_ok; simpl; lia).
  assert (H2 : region_ok (gray_image 4 3 6) 0 0 4 3)
    by (unfold region_ok; simpl; lia).
  assert (H3 : (4 - 0) * (3 - 0) < 1000) by lia.
  split.
  - split; [exact H1|]. split; [exact H2 | exact H3].
  - exact (proj2 (proj2 (proj1 (C10_empty_candidate_set ramp_image
                                  (gray_image 4 3 6)) 0 0 4 3 H1 H2 H3))).
Defined.

(** C5.  [main] has no check on the size of the candidate set or on the
    sign of the light intensity, and does not fail on them: on every
    three-channel image with its grayscale conversion it produces both
    images, also when the candidate set is empty, in which case the light
    intensity it divides by is -1; and the loops of [main] complete for
    every light intensity. *)
Theorem C5_no_refusal (img gray : IplImage) :
  nChannels img = 3 -> 1 <= width img -> 1 <= height img ->
  width gray = width img -> height gray = height img ->
  (exists l map out,
     find_light_intensity img gray 0 0 (width img) (height img) = Some l /\
     main img gray = Some (map, out) /\
     (top_num_of 0 0 (width img) (height img) = 0 -> l = (-1)%Q)) /\
  (forall l, exists map out, main_loop img l = Some (map, out)).
Proof.
  intros Hch Hw Hh Hgw Hgh.
  assert (Hi : region_ok img 0 0 (width img) (height img))
    by (unfold region_ok; lia).
  assert (Hg : region_ok gray 0 0 (width img) (height img))
    by (unfold region_ok; lia).
  split.
  - destruct (find_light_intensity_spec img gray 0 0 (width img) (height img)
                Hi Hg) as [dc [_ [_ [_ Eret]]]].
    set (l := cv_intensity _) in Eret.
    destruct (main_loop_spec img l Hch) as [map [out [E _]]].
    exists l, map, out. split; [exact Eret|]. split.
    + unfold main. simpl size_width. simpl size_height. rewrite Eret. exact E.
    + intros H0.
      destruct (region_ok_top_num img 0 0 (width img) (height img) Hi) as [Hn _].
      rewrite Hn in H0. apply Z.div_small_iff in H0; [|lia].
      destruct (find_light_intensity_small img gray 0 0 (width img) (height img)
                  Hi Hg) as [_ [_ Eret']]; [lia|].
      congruence.
  - intros l. destruct (main_loop_spec img l Hch) as [map [out [E _]]].
    exists map, out. exact E.
Qed.

Lemma C5_no_refusal_witness :
  (nChannels ramp_image = 3 /\ 1 <= width ramp_image /\ 1 <= height ramp_image /\
   width (gray_image 4 3 6) = width ramp_image /\
   height (gray_image 4 3 6) = height ramp_image) /\
  exists map out, main_loop ramp_image 0 = Some (map, out).
Proof.
  split.
  - simpl. repeat split; lia.
  - apply (proj2 (C5_no_refusal ramp_image (gray_image 4 3 6)
                    eq_refl ltac:(simpl; lia) ltac:(simpl; lia) eq_refl eq_refl)).
Defined.

(** A 2 x 2 image: the candidate set is empty, the light intensity is -1,
    and [main] does not fail. *)
Lemma C5_counterexample :
  top_num_of 0 0 2 2 = 0 /\
  find_light_intensity (const_image 2 2 (cvScalar 10 20 30 0))
    (gray_image 2 2 20) 0 0 2 2 = Some (-1)%Q /\
  (-1 <= 0)%Q /\
  main (const_image 2 2 (cvScalar 10 20 30 0)) (gray_image 2 2 20) <> None.
Proof.
  split; [reflexivity|]. split; [reflexivity|]. split; [lra|].
  vm_compute. discriminate.
Qed.

(** * Further properties of the program *)

(** ** Failing loops and loops on equal data *)

Lemma foldM_fails {A S : Type} (body : A -> S -> option S) (l : list A)
    (c : A) (s : S) :
  In c l -> (forall s', body c s' = None) -> foldM body l s = None.
Proof.
  intros Hin Hfail. revert s. induction l as [|a l IH]; intros s; simpl.
  - contradiction.
  - destruct (body a s) as [s'|] eqn:E; simpl; auto.
    destruct Hin as [->|Hin]; [rewrite Hfail in E; discriminate | auto].
Qed.

Lemma foldM_ext {A S : Type} (body body' : A -> S -> option S) (l : list A)
    (s : S) :
  (forall c s', In c l -> body c s' = body' c s') ->
  foldM body l s = foldM body' l s.
Proof.
  revert s. induction l as [|a l IH]; intros s H; simpl; auto.
  rewrite (H a s) by (simpl; auto).
  destruct (body' a s); simpl; auto. apply IH. intros; apply H; simpl; auto.
Qed.

Lemma cvGet2D_out (img : IplImage) (y x : Z) :
  ~ (0 <= y < height img /\ 0 <= x < width img) -> cvGet2D img y x = None.
Proof.
  intros H. unfold cvGet2D, in_image.
  destruct (Z.leb_spec 0 y), (Z.ltb_spec y (height img)),
    (Z.leb_spec 0 x), (Z.ltb_spec x (width img)); simpl; auto.
  exfalso. apply H. lia.
Qed.

Lemma region_empty (x1 y1 x2 y2 : Z) :
  x2 <= x1 \/ y2 <= y1 -> region x1 y1 x2 y2 = [].
Proof.
  intros H. destruct (region x1 y1 x2 y2) as [|[y x] l] eqn:E; auto.
  exfalso. assert (Hin : In (y, x) (region x1 y1 x2 y2)) by (rewrite E; simpl; auto).
  apply region_In in Hin. lia.
Qed.

(** A non-empty region that is not inside the image has a pixel outside
    it. *)
Lemma region_pixel_outside (img : IplImage) (x1 y1 x2 y2 : Z) :
  x1 < x2 -> y1 < y2 -> ~ region_ok img x1 y1 x2 y2 ->
  exists c, In c (region x1 y1 x2 y2) /\ cvGet2D img (fst c) (snd c) = None.
Proof.
  intros Hx Hy Hno. unfold region_ok in Hno.
  assert (Hc : x1 < 0 \/ y1 < 0 \/ width img < x2 \/ height img < y2) by lia.
  destruct (Z_lt_dec x1 0) as [H1|H1]; [|destruct (Z_lt_dec y1 0) as [H2|H2];
    [|destruct (Z_lt_dec (width img) x2) as [H3|H3]]].
  - exists (y1, x1). split; [apply region_In; lia|]. apply cvGet2D_out. simpl. lia.
  - exists (y1, x1). split; [apply region_In; lia|]. apply cvGet2D_out. simpl. lia.
  - exists (y1, x2 - 1). split; [apply region_In; lia|].
    apply cvGet2D_out. simpl. lia.
  - exists (y2 - 1, x1). split; [apply region_In; lia|].
    apply cvGet2D_out. simpl. lia.
Qed.

Lemma find_dark_channel_not_inside (img : IplImage) (x1 y1 x2 y2 : Z) :
  x1 < x2 -> y1 < y2 -> ~ region_ok img x1 y1 x2 y2 ->
  find_dark_channel img x1 y1 x2 y2 = None.
Proof.
  intros Hx Hy Hno.
  destruct (region_pixel_outside img x1 y1 x2 y2 Hx Hy Hno) as [c [Hin Hout]].
  unfold find_dark_channel. destruct (cvGet2D img y1 x1) as [p|]; simpl; auto.
  rewrite for_range_region.
  rewrite (foldM_fails _ _ c); auto.
  intros [mp m]. unfold dark_step. rewrite Hout. reflexivity.
Qed.

(** ** [scalar_min] on any number of values *)

(** X1.  For 1 to 4 values, [scalar_min] returns an index below the number
    of values that holds their minimum, and every earlier index holds a
    strictly larger value. *)
Theorem X1_scalar_min_general (sc : CvScalar) (num_vals : Z) :
  1 <= num_vals <= 4 ->
  0 <= scalar_min sc num_vals < num_vals /\
  (forall k, 0 <= k < num_vals ->
     (val sc (scalar_min sc num_vals) <= val sc k)%Q) /\
  (forall k, 0 <= k < scalar_min sc num_vals ->
     (val sc (scalar_min sc num_vals) < val sc k)%Q).
Proof.
  intros Hn.
  assert (Hc : num_vals = 1 \/ num_vals = 2 \/ num_vals = 3 \/ num_vals = 4) by lia.
  destruct Hc as [-> | [-> | [-> | ->]]]; unfold scalar_min, for_pure;
    [ change (range 1 1) with (@nil Z) | change (range 1 2) with [1]
    | change (range 1 3) with [1; 2] | change (range 1 4) with [1; 2; 3] ];
    cbn [fold_left val];
    repeat match goal with
      | |- context [Qltb ?a ?b] =>
          let E := fresh "E" in
          destruct (Qltb a b) eqn:E;
          [apply Qltb_lt in E | apply Qltb_ge in E]; cbn [snd fst val]
      end;
    cbn [snd];
    (split; [lia|]); split; intros k Hk;
    match goal with
    | H : 0 <= k < ?n |- _ =>
        assert (Hk' : k = 0 \/ k = 1 \/ k = 2 \/ k = 3) by lia;
        destruct Hk' as [-> | [-> | [-> | ->]]]; cbn [val]; try lia; try lra
    end.
Qed.

Lemma X1_scalar_min_general_witness :
  1 <= 4 <= 4 /\
  (0 <= scalar_min (cvScalar 5 3 9 3) 4 < 4 /\
   (forall k, 0 <= k < 4 ->
      (val (cvScalar 5 3 9 3) (scalar_min (cvScalar 5 3 9 3) 4)
       <= val (cvScalar 5 3 9 3) k)%Q) /\
   (forall k, 0 <= k < scalar_min (cvScalar 5 3 9 3) 4 ->
      (val (cvScalar 5 3 9 3) (scalar_min (cvScalar 5 3 9 3) 4)
       < val (cvScalar 5 3 9 3) k)%Q)).
Proof.
  split; [lia|]. apply (X1_scalar_min_general (cvScalar 5 3 9 3) 4). lia.
Defined.

(** ** [find_dark_channel] at the edges *)

(** X2.  On a non-empty region, [find_dark_channel] fails with an OpenCV
    range error exactly when the region is not wholly inside the image. *)
Theorem X2_find_dark_channel_defined (img : IplImage) (x1 y1 x2 y2 : Z) :
  x1 < x2 -> y1 < y2 ->
  (find_dark_channel img x1 y1 x2 y2 <> None <-> region_ok img x1 y1 x2 y2).
Proof.
  intros Hx Hy. split.
  - intros Hsome.
    destruct (Z_le_dec 0 x1), (Z_le_dec x2 (width img)),
      (Z_le_dec 0 y1), (Z_le_dec y2 (height img));
      try (unfold region_ok; lia);
      exfalso; apply Hsome; apply find_dark_channel_not_inside; auto;
      unfold region_ok; lia.
  - intros Hok.
    destruct (find_dark_channel_spec img x1 y1 x2 y2 Hok) as [xw [yw [_ [E _]]]].
    rewrite E. discriminate.
Qed.

Lemma X2_find_dark_channel_defined_witness :
  (0 < 5 /\ 0 < 3) /\
  (find_dark_channel ramp_image 0 0 5 3 <> None <-> region_ok ramp_image 0 0 5 3).
Proof.
  split; [lia|]. apply (X2_find_dark_channel_defined ramp_image 0 0 5 3); lia.
Defined.

(** X3.  On an empty region [find_dark_channel] still reads the pixel at
    its upper left corner: it returns the index of the minimum channel of
    that pixel when the corner is in the image, and fails when it is not. *)
Theorem X3_find_dark_channel_empty (img : IplImage) (x1 y1 x2 y2 : Z) :
  x2 <= x1 \/ y2 <= y1 ->
  ((0 <= y1 < height img /\ 0 <= x1 < width img) ->
   find_dark_channel img x1 y1 x2 y2 =
   Some (scalar_min (imageData img y1 x1) 3)) /\
  (~ (0 <= y1 < height img /\ 0 <= x1 < width img) ->
   find_dark_channel img x1 y1 x2 y2 = None).
Proof.
  intros Hempty. unfold find_dark_channel. split.
  - intros [Hy Hx]. rewrite (cvGet2D_in img y1 x1 Hy Hx). simpl.
    rewrite for_range_region, (region_empty x1 y1 x2 y2 Hempty). reflexivity.
  - intros Hout. rewrite (cvGet2D_out img y1 x1 Hout). reflexivity.
Qed.

Lemma X3_find_dark_channel_empty_witness :
  (2 <= 2 \/ 3 <= 0) /\
  (((0 <= 0 < height ramp_image /\ 0 <= 2 < width ramp_image) ->
    find_dark_channel ramp_image 2 0 2 3 =
    Some (scalar_min (imageData ramp_image 0 2) 3)) /\
   (~ (0 <= 0 < height ramp_image /\ 0 <= 2 < width ramp_image) ->
    find_dark_channel ramp_image 2 0 2 3 = None)).
Proof.
  split; [left; lia|].
  apply (X3_find_dark_channel_empty ramp_image 2 0 2 3). left. lia.
Defined.

(** X4.  [find_dark_channel] depends on the pixels of the region only: two
    images that hold the region and agree on its pixels give the same
    result. *)
Theorem X4_find_dark_channel_local (img img' : IplImage) (x1 y1 x2 y2 : Z) :
  region_ok img x1 y1 x2 y2 -> region_ok img' x1 y1 x2 y2 ->
  (forall x y, x1 <= x < x2 -> y1 <= y < y2 ->
     imageData img y x = imageData img' y x) ->
  find_dark_channel img x1 y1 x2 y2 = find_dark_channel img' x1 y1 x2 y2.
Proof.
  intros Hok Hok' Hagree. unfold find_dark_channel.
  assert (Hget : forall c, In c (region x1 y1 x2 y2) ->
            cvGet2D img (fst c) (snd c) = cvGet2D img' (fst c) (snd c)).
  { intros c Hc.
    destruct (region_ok_In img x1 y1 x2 y2 c Hok Hc) as [Hin ->].
    destruct (region_ok_In img' x1 y1 x2 y2 c Hok' Hc) as [_ ->].
    f_equal. apply Hagree; tauto. }
  assert (Hfirst : In (y1, x1) (region x1 y1 x2 y2))
    by (apply region_In; unfold region_ok in Hok; lia).
  assert (H0 := Hget (y1, x1) Hfirst). simpl in H0. rewrite H0.
  destruct (cvGet2D img' y1 x1) as [p|]; simpl; auto.
  rewrite !for_range_region.
  rewrite (foldM_ext (fun c => dark_step img (fst c) (snd c))
             (fun c => dark_step img' (fst c) (snd c))); auto.
  intros c [mp m] Hc. unfold dark_step. rewrite (Hget c Hc). reflexivity.
Qed.

Lemma X4_find_dark_channel_local_witness :
  find_dark_channel (const_image 6 5 (cvScalar 8 7 9 0)) 1 1 3 3 =
  find_dark_channel (const_image 3 3 (cvScalar 8 7 9 0)) 1 1 3 3.
Proof.
  apply X4_find_dark_channel_local.
  - unfold region_ok. simpl. lia.
  - unfold region_ok. simpl. lia.
  - intros x y _ _. reflexivity.
Defined.

(** ** The placement loop and the first slot *)

Lemma pair_ltb_lt (a b : Q * Q) :
  pair_ltb a b = true <-> pair_lt (fst a) (snd a) (fst b) (snd b).
Proof. apply pair_ltb_true. Qed.

Lemma pair_ltb_le (a b : Q * Q) :
  pair_ltb a b = false <-> pair_le (fst b) (snd b) (fst a) (snd a).
Proof.
  rewrite pair_ltb_false. unfold pair_le. split.
  - intros [H1 H2]. destruct (Qlt_le_dec (fst b) (fst a)) as [Hlt|Hge]; auto.
    right. assert (E : (fst a == fst b)%Q) by (apply Qle_antisym; assumption).
    split; [symmetry; exact E|]. destruct H2 as [H2|H2]; tauto.
  - intros [H|[E H]].
    + split; [lra|]. left. intros E. rewrite E in H. lra.
    + split; [rewrite E; lra | right; exact H].
Qed.

Lemma pair_le_lt_trans (v1 i1 v2 i2 v3 i3 : Q) :
  pair_le v1 i1 v2 i2 -> pair_lt v2 i2 v3 i3 -> pair_lt v1 i1 v3 i3.
Proof.
  unfold pair_le, pair_lt. intros [H1|[E1 H1]] [H2|[E2 H2]].
  - left. lra.
  - left. rewrite <- E2. exact H1.
  - left. rewrite E1. exact H2.
  - right. split; [rewrite E1; exact E2 | lra].
Qed.

(** X5.  The placement loop of [find_light_intensity] keeps the number of
    slots and changes at most one of them: when the pair of the pixel is
    below or equal to the pair of every slot, lexicographically, nothing
    changes and the pixel is dropped; otherwise the first slot whose pair is
    below the pair of the pixel receives the pixel and the others stay. *)
Theorem X5_place_rule (top : list channel_value_t) (x y : Z) (v i : Q) :
  length (place (Z.of_nat (length top)) top x y v i) = length top /\
  (((forall s, In s top -> pair_le v i (cv_val s) (cv_intensity s)) /\
    place (Z.of_nat (length top)) top x y v i = top) \/
   (exists pre s suf,
      top = pre ++ s :: suf /\
      (forall s', In s' pre -> pair_le v i (cv_val s') (cv_intensity s')) /\
      pair_lt (cv_val s) (cv_intensity s) v i /\
      place (Z.of_nat (length top)) top x y v i =
        pre ++ mkChannelValue x y v i :: suf)).
Proof.
  rewrite place_first_fit by apply Nat2Z.id.
  split; [apply first_fit_replace_length|].
  destruct (first_fit_replace_rule top (mkChannelValue x y v i))
    as [[Hall E]|[pre [s [suf [E [Hpre [Hs Er]]]]]]].
  - left. split; [|exact E]. intros s Hs.
    apply (pair_ltb_le (cv_val s, cv_intensity s) (v, i)). exact (Hall s Hs).
  - right. exists pre, s, suf. split; [exact E|]. split; [|split; [|exact Er]].
    + intros s' Hs'.
      apply (pair_ltb_le (cv_val s', cv_intensity s') (v, i)). exact (Hpre s' Hs').
    + apply (pair_ltb_lt (cv_val s, cv_intensity s) (v, i)). exact Hs.
Qed.

(** The pair of the pixel at [c]. *)
Lemma pixel_record_pair (img gray : IplImage) (dc : Z) (c : Z * Z) :
  (cv_val (pixel_record img gray dc c), cv_intensity (pixel_record img gray dc c)) =
  (val (imageData img (fst c) (snd c)) dc, val (imageData gray (fst c) (snd c)) 0).
Proof. reflexivity. Qed.

Lemma first_fit_head (s : channel_value_t) (rest : list channel_value_t)
    (p : channel_value_t) :
  first_fit_replace (s :: rest) p =
  if pair_ltb (cv_val s, cv_intensity s) (cv_val p, cv_intensity p)
  then p :: rest else s :: first_fit_replace rest p.
Proof. reflexivity. Qed.

(** During the scan the first slot holds the first scanned pixel whose pair
    is the largest so far. *)
Lemma candidates_first_slot (img gray : IplImage) (dc : Z) (n : nat)
    (l : list (Z * Z)) :
  StronglySorted before l ->
  (forall c, In c l -> (-1 < val (imageData img (fst c) (snd c)) dc)%Q) ->
  l <> [] ->
  exists w rest,
    In w l /\
    candidates img gray dc l (repeat sentinel (S n)) =
      pixel_record img gray dc w :: rest /\
    (forall c, In c l ->
       pair_le (val (imageData img (fst c) (snd c)) dc)
         (val (imageData gray (fst c) (snd c)) 0)
         (val (imageData img (fst w) (snd w)) dc)
         (val (imageData gray (fst w) (snd w)) 0)) /\
    (forall c, In c l -> before c w ->
       pair_lt (val (imageData img (fst c) (snd c)) dc)
         (val (imageData gray (fst c) (snd c)) 0)
         (val (imageData img (fst w) (snd w)) dc)
         (val (imageData gray (fst w) (snd w)) 0)).
Proof.
  intros Hsorted Hpos Hne.
  set (V := fun c : Z * Z => val (imageData img (fst c) (snd c)) dc).
  set (I := fun c : Z * Z => val (imageData gray (fst c) (snd c)) 0).
  assert (G : (l = [] /\
               candidates img gray dc l (repeat sentinel (S n)) =
               repeat sentinel (S n)) \/
              (exists w rest,
                 In w l /\
                 candidates img gray dc l (repeat sentinel (S n)) =
                   pixel_record img gray dc w :: rest /\
                 (forall c, In c l -> pair_le (V c) (I c) (V w) (I w)) /\
                 (forall c, In c l -> before c w ->
                    pair_lt (V c) (I c) (V w) (I w))));
    [|destruct G as [[E _]|G]; [contradiction | exact G]].
  apply (fold_left_invariant
           (fun t c => first_fit_replace t (pixel_record img gray dc c))
           (fun d top =>
              (d = [] /\ top = repeat sentinel (S n)) \/
              (exists w rest,
                 In w d /\ top = pixel_record img gray dc w :: rest /\
                 (forall c, In c d -> pair_le (V c) (I c) (V w) (I w)) /\
                 (forall c, In c d -> before c w ->
                    pair_lt (V c) (I c) (V w) (I w))))
           l (repeat sentinel (S n))).
  - left. split; reflexivity.
  - intros d c r top E [[-> ->]|[w [rest [Hw [-> [Hle Hlt]]]]]]; right.
    + exists c, (repeat sentinel n).
      change (repeat sentinel (S n)) with (sentinel :: repeat sentinel n).
      rewrite first_fit_head.
      replace (pair_ltb _ _) with true.
      * split; [simpl; auto|]. split; [reflexivity|]. split.
        -- intros c' [<-|[]]. right. split; [reflexivity | lra].
        -- intros c' [<-|[]] Hb. exfalso. unfold before in Hb. lia.
      * symmetry. apply pair_ltb_true. left.
        apply (Hpos c). rewrite E. simpl. auto.
    + rewrite first_fit_head.
      destruct (pair_ltb (cv_val (pixel_record img gray dc w),
                          cv_intensity (pixel_record img gray dc w))
                  (cv_val (pixel_record img gray dc c),
                   cv_intensity (pixel_record img gray dc c))) eqn:Ecmp.
      * apply pair_ltb_lt in Ecmp.
        change (pair_lt (V w) (I w) (V c) (I c)) in Ecmp.
        exists c, rest. split; [apply in_or_app; simpl; auto|].
        split; [reflexivity|]. split.
        -- intros c' Hc'. apply in_app_or in Hc'. destruct Hc' as [Hc'|[<-|[]]].
           ++ destruct (pair_le_lt_trans _ _ _ _ _ _ (Hle c' Hc') Ecmp) as [H|[H1 H2]];
                [left; exact H | right; split; [exact H1 | lra]].
           ++ right. split; [reflexivity | lra].
        -- intros c' Hc' Hb. apply in_app_or in Hc'. destruct Hc' as [Hc'|[<-|[]]].
           ++ exact (pair_le_lt_trans _ _ _ _ _ _ (Hle c' Hc') Ecmp).
           ++ exfalso. unfold before in Hb. lia.
      * apply pair_ltb_le in Ecmp.
        change (pair_le (V c) (I c) (V w) (I w)) in Ecmp.
        exists w, (first_fit_replace rest (pixel_record img gray dc c)).
        split; [apply in_or_app; auto|]. split; [reflexivity|]. split.
        -- intros c' Hc'. apply in_app_or in Hc'.
           destruct Hc' as [Hc'|[<-|[]]]; auto.
        -- intros c' Hc' Hb. apply in_app_or in Hc'.
           destruct Hc' as [Hc'|[<-|[]]]; auto.
           exfalso. apply (before_asym c w Hb).
           apply (sorted_prefix before d c r); [rewrite <- E; exact Hsorted | exact Hw].
Qed.

Lemma light_first_slot (img gray : IplImage) (x1 y1 x2 y2 dc : Z) :
  region_ok img x1 y1 x2 y2 -> region_ok gray x1 y1 x2 y2 ->
  pixels_nonneg img -> 1 <= top_num_of x1 y1 x2 y2 ->
  find_dark_channel img x1 y1 x2 y2 = Some dc ->
  exists w rest,
    In w (region x1 y1 x2 y2) /\
    candidates img gray dc (region x1 y1 x2 y2)
      (repeat sentinel (Z.to_nat (top_num_of x1 y1 x2 y2))) =
      pixel_record img gray dc w :: rest /\
    fill_top img gray dc (top_num_of x1 y1 x2 y2) x1 y1 x2 y2
      (init_top (top_num_of x1 y1 x2 y2)) =
      Some (pixel_record img gray dc w :: rest) /\
    find_light_intensity img gray x1 y1 x2 y2 =
      Some (cv_intensity
              (fold_left brighter (pixel_record img gray dc w :: rest) max0)) /\
    (forall c, In c (region x1 y1 x2 y2) ->
       pair_le (val (imageData img (fst c) (snd c)) dc)
         (val (imageData gray (fst c) (snd c)) 0)
         (val (imageData img (fst w) (snd w)) dc)
         (val (imageData gray (fst w) (snd w)) 0)) /\
    (forall c, In c (region x1 y1 x2 y2) -> before c w ->
       pair_lt (val (imageData img (fst c) (snd c)) dc)
         (val (imageData gray (fst c) (snd c)) 0)
         (val (imageData img (fst w) (snd w)) dc)
         (val (imageData gray (fst w) (snd w)) 0)).
Proof.
  intros Hi Hg Hnn Hn Edc.
  destruct (find_light_intensity_spec img gray x1 y1 x2 y2 Hi Hg)
    as [dc' [Edc' [_ [Efill Eret]]]].
  assert (dc' = dc) by congruence. subst dc'.
  destruct (Z.to_nat (top_num_of x1 y1 x2 y2)) as [|n] eqn:En; [lia|].
  destruct (candidates_first_slot img gray dc n (region x1 y1 x2 y2))
    as [w [rest [Hw [E [Hle Hlt]]]]].
  - apply region_sorted.
  - intros c Hc. destruct (region_ok_In img x1 y1 x2 y2 c Hi Hc) as [Hin _].
    unfold region_ok in Hi.
    assert (H := Hnn (fst c) (snd c) dc ltac:(lia) ltac:(lia)). lra.
  - intros Hnil.
    assert (Hfirst : In (y1, x1) (region x1 y1 x2 y2))
      by (apply region_In; unfold region_ok in Hi; lia).
    rewrite Hnil in Hfirst. contradiction.
  - exists w, rest. rewrite E in Efill, Eret. auto 10.
Qed.

(** ** The result of [find_light_intensity] *)

(** X6.  When the candidate set has at least one slot, its first slot holds
    at the end of the scan the first pixel, in row-major order, whose pair
    (dark channel value, intensity) is the greatest of the region, and the
    intensity returned is at least the intensity of that pixel. *)
Theorem X6_first_slot_is_greatest (img gray : IplImage) (x1 y1 x2 y2 dc : Z) :
  region_ok img x1 y1 x2 y2 -> region_ok gray x1 y1 x2 y2 ->
  pixels_nonneg img -> 1 <= top_num_of x1 y1 x2 y2 ->
  find_dark_channel img x1 y1 x2 y2 = Some dc ->
  exists xw yw rest r,
    (x1 <= xw < x2 /\ y1 <= yw < y2) /\
    fill_top img gray dc (top_num_of x1 y1 x2 y2) x1 y1 x2 y2
      (init_top (top_num_of x1 y1 x2 y2)) =
      Some (mkChannelValue xw yw (val (imageData img yw xw) dc)
              (val (imageData gray yw xw) 0) :: rest) /\
    (forall x y, x1 <= x < x2 -> y1 <= y < y2 ->
       pair_le (val (imageData img y x) dc) (val (imageData gray y x) 0)
         (val (imageData img yw xw) dc) (val (imageData gray yw xw) 0)) /\
    (forall x y, x1 <= x < x2 -> y1 <= y < y2 -> before (y, x) (yw, xw) ->
       pair_lt (val (imageData img y x) dc) (val (imageData gray y x) 0)
         (val (imageData img yw xw) dc) (val (imageData gray yw xw) 0)) /\
    find_light_intensity img gray x1 y1 x2 y2 = Some r /\
    (val (imageData gray yw xw) 0 <= r)%Q.
Proof.
  intros Hi Hg Hnn Hn Edc.
  destruct (light_first_slot img gray x1 y1 x2 y2 dc Hi Hg Hnn Hn Edc)
    as [[yw xw] [rest [Hw [_ [Efill [Eret [Hle Hlt]]]]]]].
  exists xw, yw, rest. eexists.
  split; [apply region_In in Hw; tauto|]. split; [exact Efill|].
  split; [|split; [|split; [exact Eret|]]].
  - intros x y Hx Hy. apply (Hle (y, x)). apply region_In. tauto.
  - intros x y Hx Hy Hb. apply (Hlt (y, x)); auto. apply region_In. tauto.
  - destruct (fold_brighter_spec (pixel_record img gray dc (yw, xw) :: rest) max0)
      as [_ [_ Hall]].
    apply (Hall (pixel_record img gray dc (yw, xw))). simpl. auto.
Qed.

Lemma X6_first_slot_is_greatest_witness :
  exists xw yw rest r,
    (0 <= xw < 40 /\ 0 <= yw < 25) /\
    fill_top spot_image spot_gray 0 (top_num_of 0 0 40 25) 0 0 40 25
      (init_top (top_num_of 0 0 40 25)) =
      Some (mkChannelValue xw yw (val (imageData spot_image yw xw) 0)
              (val (imageData spot_gray yw xw) 0) :: rest) /\
    (forall x y, 0 <= x < 40 -> 0 <= y < 25 ->
       pair_le (val (imageData spot_image y x) 0) (val (imageData spot_gray y x) 0)
         (val (imageData spot_image yw xw) 0) (val (imageData spot_gray yw xw) 0)) /\
    (forall x y, 0 <= x < 40 -> 0 <= y < 25 -> before (y, x) (yw, xw) ->
       pair_lt (val (imageData spot_image y x) 0) (val (imageData spot_gray y x) 0)
         (val (imageData spot_image yw xw) 0) (val (imageData spot_gray yw xw) 0)) /\
    find_light_intensity spot_image spot_gray 0 0 40 25 = Some r /\
    (val (imageData spot_gray yw xw) 0 <= r)%Q.
Proof.
  apply (X6_first_slot_is_greatest spot_image spot_gray 0 0 40 25 0).
  - unfold region_ok. simpl. lia.
  - unfold region_ok. simpl. lia.
  - exact spot_image_nonneg.
  - vm_compute. discriminate.
  - vm_compute. reflexivity.
Defined.

Lemma light_is_a_pixel (img gray : IplImage) (x1 y1 x2 y2 : Z) :
  region_ok img x1 y1 x2 y2 -> region_ok gray x1 y1 x2 y2 ->
  pixels_nonneg img -> pixels_nonneg gray ->
  1 <= top_num_of x1 y1 x2 y2 ->
  exists x y,
    (x1 <= x < x2 /\ y1 <= y < y2) /\
    find_light_intensity img gray x1 y1 x2 y2 = Some (val (imageData gray y x) 0) /\
    (0 <= val (imageData gray y x) 0)%Q.
Proof.
  intros Hi Hg Hni Hng Hn.
  destruct (find_light_intensity_spec img gray x1 y1 x2 y2 Hi Hg)
    as [dc [Edc _]].
  destruct (light_first_slot img gray x1 y1 x2 y2 dc Hi Hg Hni Hn Edc)
    as [w [rest [Hw [Ecand [_ [Eret _]]]]]].
  assert (Hgray : forall c, In c (region x1 y1 x2 y2) ->
            (0 <= val (imageData gray (fst c) (snd c)) 0)%Q).
  { intros c Hc. destruct (region_ok_In gray x1 y1 x2 y2 c Hg Hc) as [Hin _].
    unfold region_ok in Hg. apply Hng; lia. }
  destruct (fold_brighter_spec (pixel_record img gray dc w :: rest) max0)
    as [Hr [_ Hall]].
  assert (Hge := Hall (pixel_record img gray dc w) (or_introl eq_refl)).
  unfold pixel_record at 1 in Hge. cbn [cv_intensity] in Hge.
  assert (Hw0 := Hgray w Hw).
  set (r := fold_left brighter (pixel_record img gray dc w :: rest) max0) in *.
  destruct Hr as [Hr|Hr].
  - exfalso. rewrite Hr in Hge. unfold max0 in Hge. cbn [cv_intensity] in Hge. lra.
  - rewrite <- Ecand in Hr. apply candidates_In in Hr.
    destruct Hr as [Hr|[[y x] [Hp Hr]]].
    + exfalso. rewrite Hr in Hge. unfold sentinel in Hge.
      cbn [cv_intensity] in Hge. lra.
    + exists x, y. split; [apply region_In in Hp; tauto|].
      rewrite Eret, Hr. split; [reflexivity|]. apply (Hgray (y, x) Hp).
Qed.

(** X7.  When the candidate set has at least one slot and no pixel value is
    negative, the light intensity returned is the grayscale value of a pixel
    of the region; it is not the sentinel. *)
Theorem X7_light_is_a_pixel (img gray : IplImage) (x1 y1 x2 y2 : Z) :
  region_ok img x1 y1 x2 y2 -> region_ok gray x1 y1 x2 y2 ->
  pixels_nonneg img -> pixels_nonneg gray ->
  1 <= top_num_of x1 y1 x2 y2 ->
  exists x y,
    (x1 <= x < x2 /\ y1 <= y < y2) /\
    find_light_intensity img gray x1 y1 x2 y2 = Some (val (imageData gray y x) 0) /\
    (0 <= val (imageData gray y x) 0)%Q.
Proof. apply light_is_a_pixel. Qed.

Lemma X7_light_is_a_pixel_witness :
  exists x y,
    (0 <= x < 40 /\ 0 <= y < 25) /\
    find_light_intensity spot_image spot_gray 0 0 40 25 =
      Some (val (imageData spot_gray y x) 0) /\
    (0 <= val (imageData spot_gray y x) 0)%Q.
Proof.
  apply (X7_light_is_a_pixel spot_image spot_gray 0 0 40 25).
  - unfold region_ok. simpl. lia.
  - unfold region_ok. simpl. lia.
  - exact spot_image_nonneg.
  - exact spot_gray_nonneg.
  - vm_compute. discriminate.
Defined.

(** X8.  With a candidate set of exactly one slot (a region of 1000 to 1999
    pixels) and no negative pixel value, [find_light_intensity] returns the
    intensity of the first pixel, in row-major order, whose pair (dark
    channel value, intensity) is the greatest of the region. *)
Theorem X8_single_slot (img gray : IplImage) (x1 y1 x2 y2 dc : Z) :
  region_ok img x1 y1 x2 y2 -> region_ok gray x1 y1 x2 y2 ->
  pixels_nonneg img -> pixels_nonneg gray ->
  1000 <= (x2 - x1) * (y2 - y1) < 2000 ->
  find_dark_channel img x1 y1 x2 y2 = Some dc ->
  exists xw yw,
    (x1 <= xw < x2 /\ y1 <= yw < y2) /\
    find_light_intensity img gray x1 y1 x2 y2 = Some (val (imageData gray yw xw) 0) /\
    (forall x y, x1 <= x < x2 -> y1 <= y < y2 ->
       pair_le (val (imageData img y x) dc) (val (imageData gray y x) 0)
         (val (imageData img yw xw) dc) (val (imageData gray yw xw) 0)) /\
    (forall x y, x1 <= x < x2 -> y1 <= y < y2 -> before (y, x) (yw, xw) ->
       pair_lt (val (imageData img y x) dc) (val (imageData gray y x) 0)
         (val (imageData img yw xw) dc) (val (imageData gray yw xw) 0)).
Proof.
  intros Hi Hg Hni Hng Harea Edc.
  assert (Hn : top_num_of x1 y1 x2 y2 = 1).
  { rewrite top_num_of_div by lia.
    symmetry. apply Z.div_unique with (r := (x2 - x1) * (y2 - y1) - 1000); lia. }
  destruct (light_first_slot img gray x1 y1 x2 y2 dc Hi Hg Hni ltac:(lia) Edc)
    as [[yw xw] [rest [Hw [Ecand [_ [Eret [Hle Hlt]]]]]]].
  assert (Hrest : rest = []).
  { assert (Hlen := candidates_length img gray dc (region x1 y1 x2 y2)
                      (repeat sentinel (Z.to_nat (top_num_of x1 y1 x2 y2)))).
    rewrite Ecand, repeat_length, Hn in Hlen. simpl in Hlen.
    destruct rest; [reflexivity | simpl in Hlen; lia]. }
  subst rest.
  exists xw, yw. split; [apply region_In in Hw; tauto|]. split; [|split].
  - rewrite Eret. simpl fold_left.
    destruct (brighter_cases max0 (pixel_record img gray dc (yw, xw)))
      as [[_ Hc]|[-> _]]; [|reflexivity].
    exfalso. unfold pixel_record, max0 in Hc. cbn [cv_intensity fst snd] in Hc.
    destruct (region_ok_In gray x1 y1 x2 y2 (yw, xw) Hg Hw) as [Hin _].
    simpl in Hin. unfold region_ok in Hg.
    assert (H := Hng yw xw 0 ltac:(lia) ltac:(lia)). lra.
  - intros x y Hx Hy. apply (Hle (y, x)). apply region_In. tauto.
  - intros x y Hx Hy Hb. apply (Hlt (y, x)); auto. apply region_In. tauto.
Qed.

Lemma X8_single_slot_witness :
  exists xw yw,
    (0 <= xw < 40 /\ 0 <= yw < 25) /\
    find_light_intensity spot_image spot_gray 0 0 40 25 =
      Some (val (imageData spot_gray yw xw) 0) /\
    (forall x y, 0 <= x < 40 -> 0 <= y < 25 ->
       pair_le (val (imageData spot_image y x) 0) (val (imageData spot_gray y x) 0)
         (val (imageData spot_image yw xw) 0) (val (imageData spot_gray yw xw) 0)) /\
    (forall x y, 0 <= x < 40 -> 0 <= y < 25 -> before (y, x) (yw, xw) ->
       pair_lt (val (imageData spot_image y x) 0) (val (imageData spot_gray y x) 0)
         (val (imageData spot_image yw xw) 0) (val (imageData spot_gray yw xw) 0)).
Proof.
  apply (X8_single_slot spot_image spot_gray 0 0 40 25 0).
  - unfold region_ok. simpl. lia.
  - unfold region_ok. simpl. lia.
  - exact spot_image_nonneg.
  - exact spot_gray_nonneg.
  - lia.
  - vm_compute. reflexivity.
Defined.

Lemma first_fit_filled (filled : list channel_value_t) (k : nat)
    (p : channel_value_t) :
  pair_ltb (cv_val sentinel, cv_intensity sentinel) (cv_val p, cv_intensity p) = true ->
  exists filled' k',
    first_fit_replace (filled ++ repeat sentinel k) p =
      filled' ++ repeat sentinel k' /\
    (forall c, In c filled' -> c = p \/ In c filled).
Proof.
  intros Hp. induction filled as [|s filled IH].
  - destruct k as [|k].
    + exists [], O. split; [reflexivity | intros c []].
    + exists [p], k. split.
      * change ([] ++ repeat sentinel (S k)) with (sentinel :: repeat sentinel k).
        rewrite first_fit_head, Hp. reflexivity.
      * intros c [<-|[]]. auto.
  - change ((s :: filled) ++ repeat sentinel k)
      with (s :: (filled ++ repeat sentinel k)).
    rewrite first_fit_head.
    destruct (pair_ltb (cv_val s, cv_intensity s) (cv_val p, cv_intensity p)).
    + exists (p :: filled), k. split; [reflexivity|].
      intros c [<-|Hc]; [auto | right; simpl; auto].
    + destruct IH as [filled' [k' [E Hin]]].
      exists (s :: filled'), k'. split; [rewrite E; reflexivity|].
      intros c [<-|Hc]; [right; simpl; auto|].
      destruct (Hin c Hc); [auto | right; simpl; auto].
Qed.

(** X9.  At the end of the scan every slot of the candidate set is either
    unset or holds a pixel of the region with its coordinates, its dark
    channel value and its intensity, and the unset slots come after all the
    others. *)
Theorem X9_unset_slots_last (img gray : IplImage) (x1 y1 x2 y2 dc : Z) :
  region_ok img x1 y1 x2 y2 -> region_ok gray x1 y1 x2 y2 ->
  pixels_nonneg img ->
  find_dark_channel img x1 y1 x2 y2 = Some dc ->
  exists filled k,
    fill_top img gray dc (top_num_of x1 y1 x2 y2) x1 y1 x2 y2
      (init_top (top_num_of x1 y1 x2 y2)) =
      Some (filled ++ repeat sentinel k) /\
    forall c, In c filled ->
      exists x y,
        (x1 <= x < x2 /\ y1 <= y < y2) /\
        c = mkChannelValue x y (val (imageData img y x) dc)
              (val (imageData gray y x) 0).
Proof.
  intros Hi Hg Hnn Edc.
  destruct (find_light_intensity_spec img gray x1 y1 x2 y2 Hi Hg)
    as [dc' [Edc' [_ [Efill _]]]].
  assert (dc' = dc) by congruence. subst dc'.
  assert (G : exists filled k,
            candidates img gray dc (region x1 y1 x2 y2)
              (repeat sentinel (Z.to_nat (top_num_of x1 y1 x2 y2))) =
              filled ++ repeat sentinel k /\
            forall c, In c filled ->
              exists p, In p (region x1 y1 x2 y2) /\ c = pixel_record img gray dc p).
  { apply (fold_left_invariant
             (fun t c => first_fit_replace t (pixel_record img gray dc c))
             (fun d top =>
                exists filled k,
                  top = filled ++ repeat sentinel k /\
                  forall c, In c filled ->
                    exists p, In p d /\ c = pixel_record img gray dc p)).
    - exists [], (Z.to_nat (top_num_of x1 y1 x2 y2)).
      split; [reflexivity | intros c []].
    - intros d c r top E [filled [k [-> Hin]]].
      assert (Hc : In c (region x1 y1 x2 y2))
        by (rewrite E; apply in_or_app; simpl; auto).
      destruct (first_fit_filled filled k (pixel_record img gray dc c))
        as [filled' [k' [E' Hin']]].
      + apply pair_ltb_true. left.
        destruct (region_ok_In img x1 y1 x2 y2 c Hi Hc) as [Hb _].
        unfold region_ok in Hi.
        assert (H := Hnn (fst c) (snd c) dc ltac:(lia) ltac:(lia)).
        unfold pixel_record, sentinel. cbn [cv_val fst snd]. lra.
      + exists filled', k'. split; [exact E'|].
        intros s Hs. destruct (Hin' s Hs) as [->|Hs'].
        * exists c. split; [apply in_or_app; simpl; auto | reflexivity].
        * destruct (Hin s Hs') as [p [Hp ->]].
          exists p. split; [apply in_or_app; auto | reflexivity]. }
  destruct G as [filled [k [E Hin]]].
  exists filled, k. split; [rewrite Efill, E; reflexivity|].
  intros c Hc. destruct (Hin c Hc) as [[y x] [Hp ->]].
  exists x, y. split; [apply region_In in Hp; tauto | reflexivity].
Qed.

Lemma X9_unset_slots_last_witness :
  exists filled k,
    fill_top spot_image spot_gray 0 (top_num_of 0 0 40 25) 0 0 40 25
      (init_top (top_num_of 0 0 40 25)) =
      Some (filled ++ repeat sentinel k) /\
    forall c, In c filled ->
      exists x y,
        (0 <= x < 40 /\ 0 <= y < 25) /\
        c = mkChannelValue x y (val (imageData spot_image y x) 0)
              (val (imageData spot_gray y x) 0).
Proof.
  apply (X9_unset_slots_last spot_image spot_gray 0 0 40 25 0).
  - unfold region_ok. simpl. lia.
  - unfold region_ok. simpl. lia.
  - exact spot_image_nonneg.
  - vm_compute. reflexivity.
Defined.

(** ** When the program fails *)

Lemma find_light_intensity_not_inside (img gray : IplImage) (x1 y1 x2 y2 : Z) :
  x1 < x2 -> y1 < y2 ->
  find_light_intensity img gray x1 y1 x2 y2 <> None ->
  region_ok img x1 y1 x2 y2 /\ region_ok gray x1 y1 x2 y2.
Proof.
  intros Hx Hy Hsome.
  assert (Hi : region_ok img x1 y1 x2 y2).
  { destruct (Z_le_dec 0 x1), (Z_le_dec x2 (width img)),
      (Z_le_dec 0 y1), (Z_le_dec y2 (height img));
      try (unfold region_ok; lia);
      exfalso; apply Hsome; unfold find_light_intensity;
      rewrite find_dark_channel_not_inside; auto; unfold region_ok; lia. }
  split; [exact Hi|].
  destruct (Z_le_dec 0 x1), (Z_le_dec x2 (width gray)),
    (Z_le_dec 0 y1), (Z_le_dec y2 (height gray));
    try (unfold region_ok; lia);
    exfalso; apply Hsome;
    (assert (Hno : ~ region_ok gray x1 y1 x2 y2) by (unfold region_ok; lia));
    destruct (region_pixel_outside gray x1 y1 x2 y2 Hx Hy Hno) as [c [Hc Hout]];
    destruct (find_dark_channel_spec img x1 y1 x2 y2 Hi) as [xw [yw [_ [Edc _]]]];
    unfold find_light_intensity; rewrite Edc; simpl;
    unfold fill_top; rewrite for_range_region;
    rewrite (foldM_fails _ _ c); auto;
    intros top; unfold light_step; rewrite Hout;
    destruct (cvGet2D img (fst c) (snd c)); reflexivity.
Qed.

(** X10.  On a non-empty region [find_light_intensity] fails with an OpenCV
    range error exactly when the region is not wholly inside the colour
    image or not wholly inside the grayscale image. *)
Theorem X10_find_light_intensity_defined (img gray : IplImage) (x1 y1 x2 y2 : Z) :
  x1 < x2 -> y1 < y2 ->
  (find_light_intensity img gray x1 y1 x2 y2 <> None <->
   region_ok img x1 y1 x2 y2 /\ region_ok gray x1 y1 x2 y2).
Proof.
  intros Hx Hy. split.
  - apply find_light_intensity_not_inside; assumption.
  - intros [Hi Hg].
    destruct (find_light_intensity_spec img gray x1 y1 x2 y2 Hi Hg)
      as [dc [_ [_ [_ E]]]].
    rewrite E. discriminate.
Qed.

Lemma X10_find_light_intensity_defined_witness :
  (0 < 4 /\ 0 < 3) /\
  (find_light_intensity ramp_image (gray_image 4 2 6) 0 0 4 3 <> None <->
   region_ok ramp_image 0 0 4 3 /\ region_ok (gray_image 4 2 6) 0 0 4 3).
Proof.
  split; [lia|].
  apply (X10_find_light_intensity_defined ramp_image (gray_image 4 2 6) 0 0 4 3); lia.
Defined.

(** X11.  On a three-channel image with at least one pixel and a grayscale
    image of its size, [main] does not fail, and the transmission map and
    the output image it fills have the width, the height and the depth of
    the input, with one and three channels. *)
Theorem X11_main_images (img gray : IplImage) :
  nChannels img = 3 -> 1 <= width img -> 1 <= height img ->
  width gray = width img -> height gray = height img ->
  exists map out,
    main img gray = Some (map, out) /\
    (width map = width img /\ height map = height img /\
     nChannels map = 1 /\ depth map = depth img) /\
    (width out = width img /\ height out = height img /\
     nChannels out = 3 /\ depth out = depth img).
Proof.
  intros Hch Hw Hh Hgw Hgh.
  assert (Hi : region_ok img 0 0 (width img) (height img))
    by (unfold region_ok; lia).
  assert (Hg : region_ok gray 0 0 (width img) (height img))
    by (unfold region_ok; lia).
  destruct (find_light_intensity_spec img gray 0 0 _ _ Hi Hg)
    as [dc [_ [_ [_ Eret]]]].
  set (l := cv_intensity _) in Eret.
  destruct (main_loop_spec img l Hch) as [map [out [E _]]].
  exists map, out. split.
  - unfold main. simpl size_width. simpl size_height. rewrite Eret. exact E.
  - apply (main_loop_images img l map out Hch E).
Qed.

Lemma X11_main_images_witness :
  exists map out,
    main ramp_image (gray_image 4 3 6) = Some (map, out) /\
    (width map = width ramp_image /\ height map = height ramp_image /\
     nChannels map = 1 /\ depth map = depth ramp_image) /\
    (width out = width ramp_image /\ height out = height ramp_image /\
     nChannels out = 3 /\ depth out = depth ramp_image).
Proof.
  apply (X11_main_images ramp_image (gray_image 4 3 6));
    try reflexivity; simpl; lia.
Defined.

(** ** The arithmetic of the recovery *)

Lemma fmax_floor (t : Q) :
  (54 # 100 <= fmax t (54 # 100))%Q /\
  ((t <= 1)%Q -> (fmax t (54 # 100) <= 1)%Q) /\
  ((54 # 100 <= t)%Q -> fmax t (54 # 100) = t).
Proof.
  unfold fmax. destruct (Qltb t (54 # 100)) eqn:E.
  - apply Qltb_lt in E. repeat split; lra.
  - apply Qltb_ge in E. repeat split; auto; lra.
Qed.

Lemma quotient_bounds (a q : Q) :
  (54 # 100 <= q)%Q ->
  ((0 <= a)%Q -> (0 <= a / q)%Q /\ (a / q <= a * (100 # 54))%Q) /\
  ((a <= 0)%Q -> (a / q <= 0)%Q /\ (a * (100 # 54) <= a / q)%Q) /\
  ((q <= 1)%Q ->
   ((0 <= a)%Q -> (a <= a / q)%Q) /\ ((a <= 0)%Q -> (a / q <= a)%Q)).
Proof.
  intros Hq.
  assert (Hd : (a / q * q == a)%Q)
    by (rewrite Qmult_comm; apply Qmult_div_r; lra).
  set (d := (a / q)%Q) in *.
  repeat split; intros; nra.
Qed.

Lemma recovered_bounds (p : CvScalar) (k : Z) (l t : Q) :
  ((l <= val p k)%Q ->
   (l <= recovered p k l t)%Q /\
   (recovered p k l t - l <= (val p k - l) * (100 # 54))%Q) /\
  ((val p k <= l)%Q ->
   (recovered p k l t <= l)%Q /\
   (l - recovered p k l t <= (l - val p k) * (100 # 54))%Q) /\
  ((t <= 1)%Q ->
   ((l <= val p k)%Q -> (val p k <= recovered p k l t)%Q) /\
   ((val p k <= l)%Q -> (recovered p k l t <= val p k)%Q)).
Proof.
  unfold recovered.
  destruct (fmax_floor t) as [Hlo [Hhi _]].
  destruct (quotient_bounds (val p k - l) (fmax t (54 # 100)) Hlo)
    as [Hpos [Hneg Hexp]].
  set (d := ((val p k - l) / fmax t (54 # 100))%Q) in *.
  split; [|split].
  - intros H. destruct Hpos as [H1 H2]; [lra|]. split; lra.
  - intros H. destruct Hneg as [H1 H2]; [lra|]. split; lra.
  - intros Ht. destruct (Hexp (Hhi Ht)) as [H1 H2].
    split; intros H; [assert (H' := H1 ltac:(lra)) | assert (H' := H2 ltac:(lra))]; lra.
Qed.

(** X12.  For a light intensity other than 0, the value computed for a
    channel of the output lies on the same side of the light intensity as
    the input value, and its distance to the light intensity is at most
    twice that of the input: the floor of 0.54 on the transmission keeps the
    amplification below 2.  When the light intensity is positive and the
    value of the pixel on the dark channel index is not negative, the
    distance is not reduced either. *)
Theorem X12_recovery_contrast (img : IplImage) (light_intensity : Q) (x y c : Z) :
  nChannels img = 3 -> 0 <= x < width img -> 0 <= y < height img ->
  0 <= c < 3 -> ~ (light_intensity == 0)%Q ->
  exists map out dc,
    main_loop img light_intensity = Some (map, out) /\
    find_dark_channel img (Z.max (x - 10) 0) (Z.max (y - 10) 0)
      (Z.min (x + 10) (width img)) (Z.min (y + 10) (height img)) = Some dc /\
    ((light_intensity <= val (imageData img y x) c)%Q ->
     (light_intensity <= val (imageData out y x) c)%Q /\
     (val (imageData out y x) c - light_intensity
      <= (val (imageData img y x) c - light_intensity) * 2)%Q) /\
    ((val (imageData img y x) c <= light_intensity)%Q ->
     (val (imageData out y x) c <= light_intensity)%Q /\
     (light_intensity - val (imageData out y x) c
      <= (light_intensity - val (imageData img y x) c) * 2)%Q) /\
    ((0 < light_intensity)%Q -> (0 <= val (imageData img y x) dc)%Q ->
     ((light_intensity <= val (imageData img y x) c)%Q ->
      (val (imageData img y x) c <= val (imageData out y x) c)%Q) /\
     ((val (imageData img y x) c <= light_intensity)%Q ->
      (val (imageData out y x) c <= val (imageData img y x) c)%Q)).
Proof.
  intros Hch Hx Hy Hc Hl.
  destruct (main_loop_spec img light_intensity Hch) as [map [out [E Hdone]]].
  destruct (Hdone x y Hx Hy) as [dc [Edc [_ [_ Hout]]]].
  exists map, out, dc. split; [exact E|]. split; [exact Edc|].
  rewrite (Hout c Hc).
  destruct (recovered_bounds (imageData img y x) c light_intensity
              (transmission (imageData img y x) dc light_intensity))
    as [H1 [H2 H3]].
  split; [|split].
  - intros H. destruct (H1 H) as [Ha Hb]. split; [exact Ha | lra].
  - intros H. destruct (H2 H) as [Ha Hb]. split; [exact Ha | lra].
  - intros Hpos Hv. apply H3. unfold transmission.
    apply transmission_le_1; assumption.
Qed.

Lemma X12_recovery_contrast_witness :
  exists map out dc,
    main_loop ramp_image 4 = Some (map, out) /\
    find_dark_channel ramp_image (Z.max (1 - 10) 0) (Z.max (2 - 10) 0)
      (Z.min (1 + 10) (width ramp_image)) (Z.min (2 + 10) (height ramp_image))
      = Some dc /\
    ((4 <= val (imageData ramp_image 2 1) 1)%Q ->
     (4 <= val (imageData out 2 1) 1)%Q /\
     (val (imageData out 2 1) 1 - 4
      <= (val (imageData ramp_image 2 1) 1 - 4) * 2)%Q) /\
    ((val (imageData ramp_image 2 1) 1 <= 4)%Q ->
     (val (imageData out 2 1) 1 <= 4)%Q /\
     (4 - val (imageData out 2 1) 1
      <= (4 - val (imageData ramp_image 2 1) 1) * 2)%Q) /\
    ((0 < 4)%Q -> (0 <= val (imageData ramp_image 2 1) dc)%Q ->
     ((4 <= val (imageData ramp_image 2 1) 1)%Q ->
      (val (imageData ramp_image 2 1) 1 <= val (imageData out 2 1) 1)%Q) /\
     ((val (imageData ramp_image 2 1) 1 <= 4)%Q ->
      (val (imageData out 2 1) 1 <= val (imageData ramp_image 2 1) 1)%Q)).
Proof.
  apply (X12_recovery_contrast ramp_image 4%Q 1 2 1); try (simpl; lia).
  discriminate.
Defined.

Lemma transmission_one (v l : Q) : (v == 0)%Q -> (1 - v / l == 1)%Q.
Proof.
  intros Hv. rewrite Hv. unfold Qdiv. rewrite Qmult_0_l. lra.
Qed.

(** X13.  Where the value of the pixel on the dark channel index of its
    window is 0 the transmission estimate is 1 and, for a positive light
    intensity, the recovered pixel equals the input pixel on its three
    channels. *)
Theorem X13_recovery_identity (img : IplImage) (light_intensity : Q) (x y : Z) :
  nChannels img = 3 -> 0 <= x < width img -> 0 <= y < height img ->
  (0 < light_intensity)%Q ->
  exists map out dc,
    main_loop img light_intensity = Some (map, out) /\
    find_dark_channel img (Z.max (x - 10) 0) (Z.max (y - 10) 0)
      (Z.min (x + 10) (width img)) (Z.min (y + 10) (height img)) = Some dc /\
    ((val (imageData img y x) dc == 0)%Q ->
     (val (imageData map y x) 0 == 255)%Q /\
     forall c, 0 <= c < 3 ->
       (val (imageData out y x) c == val (imageData img y x) c)%Q).
Proof.
  intros Hch Hx Hy Hl.
  destruct (main_loop_spec img light_intensity Hch) as [map [out [E Hdone]]].
  destruct (Hdone x y Hx Hy) as [dc [Edc [_ [Emap Hout]]]].
  exists map, out, dc. split; [exact E|]. split; [exact Edc|].
  intros Hv.
  assert (Ht : (transmission (imageData img y x) dc light_intensity == 1)%Q)
    by (apply transmission_one; exact Hv).
  split.
  - rewrite Emap. cbn [val cvScalar val0]. rewrite Ht. lra.
  - intros c Hc. rewrite (Hout c Hc). unfold recovered.
    destruct (fmax_floor (transmission (imageData img y x) dc light_intensity))
      as [_ [_ Hfix]].
    rewrite Hfix by (rewrite Ht; lra). rewrite Ht. field.
Qed.

Lemma X13_recovery_identity_witness :
  exists map out dc,
    main_loop pair_image 100 = Some (map, out) /\
    find_dark_channel pair_image (Z.max (0 - 10) 0) (Z.max (0 - 10) 0)
      (Z.min (0 + 10) (width pair_image)) (Z.min (0 + 10) (height pair_image))
      = Some dc /\
    ((val (imageData pair_image 0 0) dc == 0)%Q ->
     (val (imageData map 0 0) 0 == 255)%Q /\
     forall c, 0 <= c < 3 ->
       (val (imageData out 0 0) c == val (imageData pair_image 0 0) c)%Q).
Proof.
  apply (X13_recovery_identity pair_image 100%Q 0 0); simpl; try lia.
  reflexivity.
Defined.

(** X14.  Where the transmission estimate is at least the floor 0.54 and
    the light intensity is not 0, the 8-bit output image stores 0 on the
    dark channel index of the window: the value computed there is 0 up to
    the rounding of the doubles. *)
Theorem X14_dark_channel_removed (img : IplImage) (light_intensity : Q) (x y : Z) :
  nChannels img = 3 -> depth img = IPL_DEPTH_8U ->
  0 <= x < width img -> 0 <= y < height img ->
  ~ (light_intensity == 0)%Q ->
  exists map out dc,
    main_loop img light_intensity = Some (map, out) /\
    find_dark_channel img (Z.max (x - 10) 0) (Z.max (y - 10) 0)
      (Z.min (x + 10) (width img)) (Z.min (y + 10) (height img)) = Some dc /\
    ((54 # 100 <= 1 - val (imageData img y x) dc / light_intensity)%Q ->
     val (pixel_buffer out y x) dc = 0%Q).
Proof.
  intros Hch Hd Hx Hy Hl.
  destruct (main_loop_spec img light_intensity Hch) as [map [out [E Hdone]]].
  destruct (main_loop_images img light_intensity map out Hch E)
    as [_ [_ [_ [Hoc Hod]]]].
  destruct (Hdone x y Hx Hy) as [dc [Edc [Hdc [_ Hout]]]].
  exists map, out, dc. split; [exact E|]. split; [exact Edc|].
  intros Ht.
  assert (Hzero : (val (imageData out y x) dc == 0)%Q).
  { rewrite (Hout dc Hdc). unfold recovered, transmission.
    destruct (fmax_floor (1 - val (imageData img y x) dc / light_intensity))
      as [_ [_ Hfix]].
    rewrite (Hfix Ht).
    set (v := val (imageData img y x) dc) in *.
    assert (Hne : ~ (light_intensity - v == 0)%Q).
    { intros Hz. assert (Hv : (v == light_intensity)%Q) by lra.
      rewrite Hv in Ht. unfold Qdiv in Ht. rewrite Qmult_inv_r in Ht by exact Hl.
      lra. }
    field. split; [exact Hl | exact Hne]. }
  unfold pixel_buffer. rewrite val_stored by lia. rewrite Hod, Hd.
  cbn [to_depth].
  destruct (store_8u_spec (val (imageData out y x) dc)) as [_ [H0 _]].
  rewrite H0 by lra. reflexivity.
Qed.

Lemma X14_dark_channel_removed_witness :
  exists map out dc,
    main_loop ramp_image 20 = Some (map, out) /\
    find_dark_channel ramp_image (Z.max (1 - 10) 0) (Z.max (2 - 10) 0)
      (Z.min (1 + 10) (width ramp_image)) (Z.min (2 + 10) (height ramp_image))
      = Some dc /\
    ((54 # 100 <= 1 - val (imageData ramp_image 2 1) dc / 20)%Q ->
     val (pixel_buffer out 2 1) dc = 0%Q).
Proof.
  apply (X14_dark_channel_removed ramp_image 20%Q 1 2);
    try reflexivity; try (simpl; lia).
  discriminate.
Defined.

(** ** The copy loop of [evaluate] *)

(** X15.  In [evaluate] the source of the copy is a one-channel 8-bit image
    and the destination a one-channel float image, both of size [size].
    The copy loops do not fail; they keep the size, channel count and depth
    of the destination, and its buffer then holds at every pixel the value
    of the source. *)
Theorem X15_evaluate_copy (size : CvSize) (gray_tmp gray : IplImage) :
  gray_8u gray_tmp ->
  nChannels gray = 1 -> depth gray = IPL_DEPTH_32F ->
  cvGetSize gray_tmp = size -> cvGetSize gray = size ->
  exists gray',
    evaluate_copy size gray_tmp gray = Some gray' /\
    (cvGetSize gray' = size /\ nChannels gray' = 1 /\
     depth gray' = IPL_DEPTH_32F) /\
    (forall x y, 0 <= x < size_width size -> 0 <= y < size_height size ->
       pixel_buffer gray' y x = imageData gray_tmp y x).
Proof.
  intros [Htc [Htd Hpix]] Hgc Hgd Hts Hgs.
  assert (Htw : width gray_tmp = size_width size) by (rewrite <- Hts; reflexivity).
  assert (Hth : height gray_tmp = size_height size) by (rewrite <- Hts; reflexivity).
  assert (Hgw : width gray = size_width size) by (rewrite <- Hgs; reflexivity).
  assert (Hgh : height gray = size_height size) by (rewrite <- Hgs; reflexivity).
  unfold evaluate_copy. rewrite for_range_region.
  destruct (foldM_invariant
              (fun c => copy_step gray_tmp (fst c) (snd c))
              (fun d g =>
                 (width g = width gray /\ height g = height gray /\
                  nChannels g = nChannels gray /\ depth g = depth gray) /\
                 (forall c, In c d ->
                    imageData g (fst c) (snd c) = imageData gray_tmp (fst c) (snd c)))
              (region 0 0 (size_width size) (size_height size)) gray)
    as [g [E [[Hw [Hh [Hc Hd]]] Hin]]].
  - split; [auto|]. intros c [].
  - intros d [y x] r g El [[Hw [Hh [Hc Hd]]] Hin]. cbn [fst snd].
    assert (Hyx : In (y, x) (region 0 0 (size_width size) (size_height size)))
      by (rewrite El; apply in_or_app; simpl; auto).
    assert (Hb := Hyx). apply region_In in Hb.
    unfold copy_step. rewrite cvGet2D_in by lia. simpl.
    rewrite cvSet2D_in by lia.
    eexists; split; [reflexivity|]. split; [simpl; auto|].
    intros [y' x'] Hc'. cbn [fst snd]. unfold set_pixel. cbn [imageData].
    destruct (coord_eq_dec (y', x') (y, x)) as [Eq|Hne].
    + inversion Eq; subst. rewrite !Z.eqb_refl. reflexivity.
    + destruct (Z.eqb_spec y' y), (Z.eqb_spec x' x); simpl;
        try (subst; congruence);
        (apply in_app_or in Hc'; destruct Hc' as [Hc'|[Hc'|[]]];
         [exact (Hin (y', x') Hc') | congruence]).
  - exists g. split; [exact E|]. split.
    + split; [|split; congruence].
      unfold cvGetSize. rewrite Hw, Hh, Hgw, Hgh. destruct size; reflexivity.
    + intros x y Hx Hy. unfold pixel_buffer.
      assert (Hv := Hin (y, x) ltac:(apply region_In; lia)).
      cbn [fst snd] in Hv. rewrite Hv, Hc, Hd, Hgc, Hgd.
      destruct (Hpix y x ltac:(lia) ltac:(lia)) as [k [_ ->]]. reflexivity.
Qed.

Lemma X15_evaluate_copy_witness :
  exists gray',
    evaluate_copy (mkSize 4 3) (gray_image 4 3 6)
      (cvCreateImage (mkSize 4 3) IPL_DEPTH_32F 1) = Some gray' /\
    (cvGetSize gray' = mkSize 4 3 /\ nChannels gray' = 1 /\
     depth gray' = IPL_DEPTH_32F) /\
    (forall x y, 0 <= x < size_width (mkSize 4 3) ->
       0 <= y < size_height (mkSize 4 3) ->
       pixel_buffer gray' y x = imageData (gray_image 4 3 6) y x).
Proof.
  apply (X15_evaluate_copy (mkSize 4 3) (gray_image 4 3 6)
           (cvCreateImage (mkSize 4 3) IPL_DEPTH_32F 1)); try reflexivity.
  split; [reflexivity|]. split; [reflexivity|].
  intros y x _ _. exists 6. split; [lia | reflexivity].
Defined.

(** ** [main] on an image of at least 1000 pixels *)

(** X16.  On a three-channel image of at least 1000 pixels without negative
    values, [main] divides by the grayscale value of one of the pixels; when
    that value is positive, no value handed to the transmission map exceeds
    255. *)
Theorem X16_main_transmission_bounded (img gray : IplImage) :
  nChannels img = 3 -> 1 <= width img -> 1 <= height img ->
  width img <= width gray -> height img <= height gray ->
  pixels_nonneg img -> pixels_nonneg gray ->
  1000 <= width img * height img ->
  exists x0 y0 map out,
    (0 <= x0 < width img /\ 0 <= y0 < height img) /\
    find_light_intensity img gray 0 0 (width img) (height img) =
      Some (val (imageData gray y0 x0) 0) /\
    main img gray = Some (map, out) /\
    main_loop img (val (imageData gray y0 x0) 0) = Some (map, out) /\
    ((0 < val (imageData gray y0 x0) 0)%Q ->
     forall x y, 0 <= x < width img -> 0 <= y < height img ->
       (val (imageData map y x) 0 <= 255)%Q).
Proof.
  intros Hch Hw Hh Hgw Hgh Hni Hng Harea.
  assert (Hi : region_ok img 0 0 (width img) (height img))
    by (unfold region_ok; lia).
  assert (Hg : region_ok gray 0 0 (width img) (height img))
    by (unfold region_ok; lia).
  assert (Hn : 1 <= top_num_of 0 0 (width img) (height img)).
  { rewrite top_num_of_div by lia. apply Z.div_le_lower_bound; lia. }
  destruct (light_is_a_pixel img gray 0 0 _ _ Hi Hg Hni Hng Hn)
    as [x0 [y0 [Hin [Eret _]]]].
  destruct (main_loop_spec img (val (imageData gray y0 x0) 0) Hch)
    as [map [out [E Hdone]]].
  exists x0, y0, map, out. split; [lia|]. split; [exact Eret|].
  split; [|split; [exact E|]].
  - unfold main. simpl size_width. simpl size_height. rewrite Eret. exact E.
  - intros Hl x y Hx Hy.
    destruct (Hdone x y Hx Hy) as [dc [_ [_ [Emap _]]]].
    rewrite Emap.
    change (val (cvScalar (transmission (imageData img y x) dc
                             (val (imageData gray y0 x0) 0) * 255) 0 0 0) 0)
      with (transmission (imageData img y x) dc (val (imageData gray y0 x0) 0)
            * 255)%Q.
    unfold transmission.
    assert (Ht := transmission_le_1 (val (imageData img y x) dc) _ Hl
                    (Hni y x dc ltac:(lia) ltac:(lia))).
    set (t := (1 - val (imageData img y x) dc / val (imageData gray y0 x0) 0)%Q) in *.
    lra.
Qed.

Lemma X16_main_transmission_bounded_witness :
  exists x0 y0 map out,
    (0 <= x0 < width spot_image /\ 0 <= y0 < height spot_image) /\
    find_light_intensity spot_image spot_gray 0 0 (width spot_image)
      (height spot_image) = Some (val (imageData spot_gray y0 x0) 0) /\
    main spot_image spot_gray = Some (map, out) /\
    main_loop spot_image (val (imageData spot_gray y0 x0) 0) = Some (map, out) /\
    ((0 < val (imageData spot_gray y0 x0) 0)%Q ->
     forall x y, 0 <= x < width spot_image -> 0 <= y < height spot_image ->
       (val (imageData map y x) 0 <= 255)%Q).
Proof.
  apply (X16_main_transmission_bounded spot_image spot_gray);
    try (simpl; lia); try reflexivity.
  - exact spot_image_nonneg.
  - exact spot_gray_nonneg.
Defined.
